(** * EFI firmware volumes: [ReadVolume] and [Volume.Serialize]

    A shallow embedding of [pkg/efi/volume.go] and the properties of the
    volume parser and serializer.

    Layout of the development:
    - machine integers and little-endian scalars ([encoding/binary]);
    - errors, panics and the ways a Go call can end;
    - the collaborators that live in other files of the package
      (file-record codec, checksum, GUID printing), taken as an interface;
    - [FirmwareVolumeHeader], [check], [ReadVolume], [Serialize];
    - a concrete set of collaborators on which the code can be run;
    - lemmas and the theorems. *)

From Stdlib Require Import ZArith Lia Strings.Byte Strings.Ascii.
From stdpp Require Import base list gmap strings.

Local Open Scope Z_scope.

(** ** Machine integers *)

Definition uint8 (z : Z) : Z := z mod 2 ^ 8.
Definition uint16 (z : Z) : Z := z mod 2 ^ 16.
Definition uint32 (z : Z) : Z := z mod 2 ^ 32.
Definition uint64 (z : Z) : Z := z mod 2 ^ 64.

(** Go's [int] on the 64-bit targets the tool is built for: two's
    complement wrap-around. *)
Definition int (z : Z) : Z := (z + 2 ^ 63) mod 2 ^ 64 - 2 ^ 63.

(** [len(x)] as a Go [int]. *)
Definition len {A} (l : list A) : Z := Z.of_nat (length l).

(** ** Bytes and little-endian scalars *)

Definition Z_of_byte (b : byte) : Z := Z.of_N (Byte.to_N b).

Definition byte_of_Z (z : Z) : byte :=
  match Byte.of_N (Z.to_N (z mod 256)) with
  | Some b => b
  | None => x00
  end.

(** [bytes.Equal]. *)
Fixpoint bytes_Equal (a b : list byte) : bool :=
  match a, b with
  | [], [] => true
  | x :: a', y :: b' => Byte.eqb x y && bytes_Equal a' b'
  | _, _ => false
  end.

(** [binary.LittleEndian] writing an [n]-byte unsigned scalar. *)
Fixpoint le_put (n : nat) (z : Z) : list byte :=
  match n with
  | O => []
  | S n' => byte_of_Z z :: le_put n' (z / 256)
  end.

(** [binary.LittleEndian] reading an unsigned scalar from its bytes. *)
Fixpoint le_get (bs : list byte) : Z :=
  match bs with
  | [] => 0
  | b :: bs' => Z_of_byte b + 256 * le_get bs'
  end.

(** ** Errors, panics, outcomes *)

(** One constructor per error value the two functions can build; a wrapped
    cause ([%w], [%v]) is kept as an argument. *)
Inductive error : Type :=
| EOF
| ErrUnexpectedEOF
| ErrOther (msg : string)
| ErrUnknownGUID (guid : string)
| ErrInvalidSignature
| ErrHeaderLengthTooSmall
| ErrReadingVolumeHeader (cause : error)
| ErrVolumeHeaderInvalid (cause : error)
| ErrBlockmapSize
| ErrBlockmapEnd
| ErrBlockmapCount (n : Z)
| ErrReadingFile (index : Z) (cause : error)
| ErrFile (index : Z) (cause : error).

Inductive panic : Type :=
| PanicMsg (msg : string)
| PanicErr (e : error)
| PanicIndex (index : Z) (length : Z).

(** A Go function of type [(A, error)]. *)
Inductive result (A : Type) : Type :=
| Ok (a : A)
| Err (e : error).
Arguments Ok {A} a.
Arguments Err {A} e.

(** How a call of [ReadVolume] or [Serialize] ends: it returns a value, it
    returns a non-nil error, it panics, or [glog.Exit] stops the process. *)
Inductive outcome (A : Type) : Type :=
| Return (a : A)
| Fail (e : error)
| Panic (p : panic)
| Exit (e : error).
Arguments Return {A} a.
Arguments Fail {A} e.
Arguments Panic {A} p.
Arguments Exit {A} e.

(** How a call ends, without the value it returns. *)
Inductive ending : Type :=
| Returned
| Failed (e : error)
| Panicked (p : panic)
| Exited (e : error).

Definition ending_of {A} (o : outcome A) : ending :=
  match o with
  | Return _ => Returned
  | Fail e => Failed e
  | Panic p => Panicked p
  | Exit e => Exited e
  end.

(** The error taxonomy of the specification (section 7). *)
Inductive errorClass : Type :=
| UnsupportedFormat
| MalformedHeader
| MalformedBlockMap
| MalformedFile (index : Z)
| UnsupportedOperation.

(** Modelled from the spec: the classification of error values, which the
    Go code does not have (its errors are messages). GUID and signature
    mismatches are [UnsupportedFormat], size violations of the header are
    [MalformedHeader], block-map violations are [MalformedBlockMap], a
    file record that fails to decode is [MalformedFile]. *)
Definition classify (e : error) : option errorClass :=
  match e with
  | ErrReadingVolumeHeader _ => Some MalformedHeader
  | ErrVolumeHeaderInvalid (ErrUnknownGUID _) => Some UnsupportedFormat
  | ErrVolumeHeaderInvalid ErrInvalidSignature => Some UnsupportedFormat
  | ErrVolumeHeaderInvalid ErrHeaderLengthTooSmall => Some MalformedHeader
  | ErrBlockmapSize => Some MalformedBlockMap
  | ErrBlockmapEnd => Some MalformedBlockMap
  | ErrBlockmapCount _ => Some MalformedBlockMap
  | ErrReadingFile i _ => Some (MalformedFile i)
  | _ => None
  end.

(** ** The bounded cursor *)

(** Modelled from the spec: [NestedReader] (its file is not part of the
    sources at hand). A cursor is the bytes that remain in the region it
    owns; [Sub] carves a length-limited view at the current position,
    [Advance] moves the position, and neither reaches past the region. *)
Abbreviation NestedReader := (list byte).

Definition Sub (r : NestedReader) (start length : Z) : NestedReader :=
  take (Z.to_nat length) (drop (Z.to_nat start) r).

Definition Advance (r : NestedReader) (count : Z) : NestedReader :=
  drop (Z.to_nat count) r.

Definition Len (r : NestedReader) : Z := len r.

(** [io.ReadAll]: everything up to the end of the region. *)
Definition ReadAll (r : NestedReader) : list byte := r.

(** [binary.Read] of a fixed-size value of [n] bytes goes through
    [io.ReadFull]: [io.EOF] when nothing is left, [io.ErrUnexpectedEOF]
    when fewer than [n] bytes are. *)
Definition readFull (n : nat) (r : NestedReader)
  : result (list byte * NestedReader) :=
  if decide (n ≤ length r)%nat then Ok (take n r, drop n r)
  else if decide (length r = 0%nat) then Err EOF
  else Err ErrUnexpectedEOF.

(** ** Header and block map *)

Record FirmwareVolumeHeader : Type := {
  Reserved : list byte;        (* [16]byte *)
  GUID : list byte;            (* GUID, 16 bytes *)
  Length : Z;                  (* uint64 *)
  Signature : list byte;       (* [4]byte *)
  AttributeMask : Z;           (* uint32 *)
  HeaderLength : Z;            (* uint16 *)
  Checksum : Z;                (* uint16 *)
  ExtHeaderOffset : Z;         (* uint16 *)
  Reserved2 : Z;               (* uint8 *)
  Revision : Z                 (* uint8 *)
}.

Record blockmap : Type := {
  BlockCount : Z;              (* uint32 *)
  BlockSize : Z                (* uint32 *)
}.

(** What Go's types guarantee of a header value. *)
Definition header_wf (h : FirmwareVolumeHeader) : bool :=
  (length (Reserved h) =? 16)%nat && (length (GUID h) =? 16)%nat
  && (length (Signature h) =? 4)%nat
  && (0 <=? Length h) && (Length h <? 2 ^ 64)
  && (0 <=? AttributeMask h) && (AttributeMask h <? 2 ^ 32)
  && (0 <=? HeaderLength h) && (HeaderLength h <? 2 ^ 16)
  && (0 <=? Checksum h) && (Checksum h <? 2 ^ 16)
  && (0 <=? ExtHeaderOffset h) && (ExtHeaderOffset h <? 2 ^ 16)
  && (0 <=? Reserved2 h) && (Reserved2 h <? 2 ^ 8)
  && (0 <=? Revision h) && (Revision h <? 2 ^ 8).

(** What Go's types guarantee of a block-map entry. *)
Definition blockmap_wf (e : blockmap) : bool :=
  (0 <=? BlockCount e) && (BlockCount e <? 2 ^ 32)
  && (0 <=? BlockSize e) && (BlockSize e <? 2 ^ 32).

(** The terminator [(0, 0)] of a block map. *)
Definition zeroEntry (e : blockmap) : bool :=
  (BlockCount e =? 0) && (BlockSize e =? 0).

(** [binary.Write(buf, binary.LittleEndian, header)]. *)
Definition putHeader (h : FirmwareVolumeHeader) : list byte :=
  Reserved h ++ GUID h ++ le_put 8 (Length h) ++ Signature h
  ++ le_put 4 (AttributeMask h) ++ le_put 2 (HeaderLength h)
  ++ le_put 2 (Checksum h) ++ le_put 2 (ExtHeaderOffset h)
  ++ le_put 1 (Reserved2 h) ++ le_put 1 (Revision h).

(** The header held by 0x38 bytes. *)
Definition getHeader (b : list byte) : FirmwareVolumeHeader := {|
  Reserved := take 16 b;
  GUID := take 16 (drop 16 b);
  Length := le_get (take 8 (drop 32 b));
  Signature := take 4 (drop 40 b);
  AttributeMask := le_get (take 4 (drop 44 b));
  HeaderLength := le_get (take 2 (drop 48 b));
  Checksum := le_get (take 2 (drop 50 b));
  ExtHeaderOffset := le_get (take 2 (drop 52 b));
  Reserved2 := le_get (take 1 (drop 54 b));
  Revision := le_get (take 1 (drop 55 b))
|}.

(** [binary.Read(r, binary.LittleEndian, &header)]. *)
Definition readHeader (r : NestedReader)
  : result (FirmwareVolumeHeader * NestedReader) :=
  match readFull 56 r with
  | Err e => Err e
  | Ok (b, r') => Ok (getHeader b, r')
  end.

Definition putBlockmap (e : blockmap) : list byte :=
  le_put 4 (BlockCount e) ++ le_put 4 (BlockSize e).

(** [binary.Write(buf, binary.LittleEndian, bmap)] for a slice. *)
Definition putBlockmaps (bmap : list blockmap) : list byte :=
  concat (map putBlockmap bmap).

Definition getBlockmap (b : list byte) : blockmap := {|
  BlockCount := le_get (take 4 b);
  BlockSize := le_get (take 4 (drop 4 b))
|}.

(** [binary.Read(r, binary.LittleEndian, &entry)]. *)
Definition readBlockmap (r : NestedReader)
  : result (blockmap * NestedReader) :=
  match readFull 8 r with
  | Err e => Err e
  | Ok (b, r') => Ok (getBlockmap b, r')
  end.

(** The GUID of the firmware file system, as [GUID.String] prints it. *)
Definition fvGUID : string := "7a9354d9-0468-444a-81ce-0bf617d890df"%string.

(** [[]byte("_FVH")]. *)
Definition fvSignature : list byte := [x5f; x46; x56; x48].

(** ** Collaborators

    The file-record codec ([readFile], [FirmwareFile.Serialize]), the
    checksum and the GUID printer are defined in other files of the
    package. The volume code uses them through this interface only.
    [checksum16] returns a [uint16]; a successful [readFile] has read at
    least one byte of its cursor (a record describes its own, non-zero,
    length), which is what makes the file loop of [ReadVolume] end. *)
Class Collaborators : Type := {
  FirmwareFile : Type;
  FileType : FirmwareFile → Z;
  FileTypePadding : Z;
  GUID_String : list byte → string;
  checksum16 : list byte → Z;
  checksum16_range : ∀ b, 0 ≤ checksum16 b < 2 ^ 16;
  readFile : NestedReader → result (FirmwareFile * NestedReader);
  readFile_consumes : ∀ r f r',
    readFile r = Ok (f, r') → (length r' < length r)%nat;
  FirmwareFile_Serialize : FirmwareFile → result (list byte)
}.

Section Volume.
Context `{C : Collaborators}.

(** [FirmwareVolumeHeader.check]: [None] is the nil error. *)
Definition check (h : FirmwareVolumeHeader) : option error :=
  if negb (String.eqb (GUID_String (GUID h)) fvGUID)
  then Some (ErrUnknownGUID (GUID_String (GUID h)))
  else if negb (bytes_Equal (Signature h) fvSignature)
  then Some ErrInvalidSignature
  else if HeaderLength h <? 0x38 + 8
  then Some ErrHeaderLengthTooSmall
  else None.

Record Volume : Type := {
  hdr : FirmwareVolumeHeader;  (* the embedded FirmwareVolumeHeader *)
  Files : list FirmwareFile;
  Custom : list byte
}.

(** *** ReadVolume *)

(** The loop over [bmapCount] entries; [inl] is the error handed to
    [glog.Exit]. *)
Fixpoint readBlockmaps (count : nat) (r : NestedReader) (bmap : list blockmap)
  : error + (list blockmap * NestedReader) :=
  match count with
  | O => inr (bmap, r)
  | S count' =>
      match readBlockmap r with
      | Err e => inl e
      | Ok (entry, r') => readBlockmaps count' r' (bmap ++ [entry])
      end
  end.

(** [for dataSub.Len() != 0 { file, err := readFile(dataSub) ... }].
    Every round consumes at least one byte ([readFile_consumes]), so
    [length dataSub] rounds are enough; see [readFiles_fuel]. *)
Fixpoint readFiles (fuel : nat) (dataSub : NestedReader)
    (files : list FirmwareFile) : result (list FirmwareFile) :=
  if Len dataSub =? 0 then Ok files
  else
    match fuel with
    | O => Ok files
    | S fuel' =>
        match readFile dataSub with
        | Err e => Err (ErrReadingFile (len files) e)
        | Ok (file, dataSub') => readFiles fuel' dataSub' (files ++ [file])
        end
    end.

(** [dataSize := bmap[0].BlockCount * bmap[0].BlockSize; dataSize -= 0x28 + 0x20]
    on [uint32]. *)
Definition dataSize (b0 : blockmap) : Z :=
  uint32 (uint32 (BlockCount b0 * BlockSize b0) - (0x28 + 0x20)).

(** Lines 93 to 127: what [ReadVolume] does with an accepted block map. *)
Definition readData (header : FirmwareVolumeHeader) (bmap : list blockmap)
    (r : NestedReader) : outcome Volume :=
  match bmap !! 0%nat with
  | None => Panic (PanicIndex 0 (len bmap))
  | Some b0 =>
      let dataSub := Sub r 0 (dataSize b0) in
      let r := Advance r (dataSize b0) in
      let rest := ReadAll r in
      match readFiles (length dataSub) dataSub [] with
      | Err e => Fail e
      | Ok files => Return {| hdr := header; Files := files; Custom := rest |}
      end
  end.

(** [bmapCount] of line 73, from the header length. *)
Definition bmapCount (header : FirmwareVolumeHeader) : Z :=
  uint16 (HeaderLength header - 0x38) / 8.

(** Lines 69 to 89: block-map decoding and its checks. *)
Definition readBlockmapStage (header : FirmwareVolumeHeader)
    (r : NestedReader) : outcome Volume :=
  let blockmapSize := uint16 (HeaderLength header - 0x38) in
  if negb (blockmapSize mod 8 =? 0) then Fail ErrBlockmapSize
  else
    match readBlockmaps (Z.to_nat (bmapCount header)) r [] with
    | inl e => Exit e
    | inr (bmap, r) =>
        match bmap !! Z.to_nat (len bmap - 1) with
        | None => Panic (PanicIndex (len bmap - 1) (len bmap))
        | Some last =>
            if negb (BlockCount last =? 0) || negb (BlockSize last =? 0)
            then Fail ErrBlockmapEnd
            else if negb (len bmap =? 2)
            then Fail (ErrBlockmapCount (len bmap))
            else readData header bmap r
        end
    end.

Definition ReadVolume (r : NestedReader) : outcome Volume :=
  match readHeader r with
  | Err e => Fail (ErrReadingVolumeHeader e)
  | Ok (header, r) =>
      match check header with
      | Some e => Fail (ErrVolumeHeaderInvalid e)
      | None => readBlockmapStage header r
      end
  end.

(** *** Serialize *)

(** Assignments to the header fields of [v]. *)
Definition setLength (h : FirmwareVolumeHeader) (x : Z) :=
  {| Reserved := Reserved h; GUID := GUID h; Length := x;
     Signature := Signature h; AttributeMask := AttributeMask h;
     HeaderLength := HeaderLength h; Checksum := Checksum h;
     ExtHeaderOffset := ExtHeaderOffset h; Reserved2 := Reserved2 h;
     Revision := Revision h |}.

Definition setHeaderLength (h : FirmwareVolumeHeader) (x : Z) :=
  {| Reserved := Reserved h; GUID := GUID h; Length := Length h;
     Signature := Signature h; AttributeMask := AttributeMask h;
     HeaderLength := x; Checksum := Checksum h;
     ExtHeaderOffset := ExtHeaderOffset h; Reserved2 := Reserved2 h;
     Revision := Revision h |}.

Definition setChecksum (h : FirmwareVolumeHeader) (x : Z) :=
  {| Reserved := Reserved h; GUID := GUID h; Length := Length h;
     Signature := Signature h; AttributeMask := AttributeMask h;
     HeaderLength := HeaderLength h; Checksum := x;
     ExtHeaderOffset := ExtHeaderOffset h; Reserved2 := Reserved2 h;
     Revision := Revision h |}.

Definition setExtHeaderOffset (h : FirmwareVolumeHeader) (x : Z) :=
  {| Reserved := Reserved h; GUID := GUID h; Length := Length h;
     Signature := Signature h; AttributeMask := AttributeMask h;
     HeaderLength := HeaderLength h; Checksum := Checksum h;
     ExtHeaderOffset := x; Reserved2 := Reserved2 h;
     Revision := Revision h |}.

Definition setHdr (v : Volume) (h : FirmwareVolumeHeader) : Volume :=
  {| hdr := h; Files := Files v; Custom := Custom v |}.

(** The first loop: the last padding file, if any. *)
Fixpoint findPadding (files : list FirmwareFile) (i : Z)
    (havePadding : bool) (paddingFileNumber : Z) : bool * Z :=
  match files with
  | [] => (havePadding, paddingFileNumber)
  | f :: files' =>
      if negb (FileType f =? FileTypePadding)
      then findPadding files' (i + 1) havePadding paddingFileNumber
      else findPadding files' (i + 1) true i
  end.

(** Lines 175 to 178: fill with 0xff up to a multiple of 8. *)
Definition align8 (data : list byte) : list byte :=
  if negb (Z.rem (len data) 8 =? 0)
  then
    let pad := int (8 - Z.rem (len data) 8) in
    data ++ replicate (Z.to_nat pad) xff
  else data.

(** The second loop: serialize and align every file, remember the bytes
    under the file's index, add up the sizes. *)
Fixpoint serializeFiles (files : list FirmwareFile) (i : Z)
    (filesSize : Z) (fileData : gmap Z (list byte))
  : result (Z * gmap Z (list byte)) :=
  match files with
  | [] => Ok (filesSize, fileData)
  | f :: files' =>
      match FirmwareFile_Serialize f with
      | Err e => Err (ErrFile i e)
      | Ok data =>
          let data := align8 data in
          serializeFiles files' (i + 1) (int (filesSize + len data))
            (<[i := data]> fileData)
      end
  end.

(** The last loop: write the remembered bytes of every file; a file
    without remembered bytes is serialized again. *)
Fixpoint writeFiles (files : list FirmwareFile) (i : Z)
    (fileData : gmap Z (list byte)) (buf : list byte) : outcome (list byte) :=
  match files with
  | [] => Return buf
  | f :: files' =>
      match fileData !! i with
      | Some data => writeFiles files' (i + 1) fileData (buf ++ data)
      | None =>
          match FirmwareFile_Serialize f with
          | Err e => Panic (PanicErr e)
          | Ok data => writeFiles files' (i + 1) fileData (buf ++ data)
          end
      end
  end.

(** Lines 183 to 188. *)
Definition makeBlockmap (filesSize : Z) : list blockmap :=
  let totalSize := int (int (filesSize + 0x38) + 0x10) in
  let nblocks := uint32 (Z.quot totalSize 256) in
  [ {| BlockCount := nblocks; BlockSize := 256 |};
    {| BlockCount := 0; BlockSize := 0 |} ].

(** Lines 191 to 194. *)
Definition paddingNeeded (filesSize : Z) : Z :=
  if negb (Z.rem filesSize 256 =? 0)
  then int (256 - Z.rem filesSize 256)
  else 0.

(** Lines 207 to 216: the header of [v] with [Length], [HeaderLength] and
    [ExtHeaderOffset] recomputed and [Checksum] cleared. *)
Definition updateHeader (h : FirmwareVolumeHeader) (filesSize : Z)
    (bmap : list blockmap) : FirmwareVolumeHeader :=
  let h := setLength h 0 in
  let h := setLength h
    (uint64 (Length h + uint64 (int (filesSize + paddingNeeded filesSize)))) in
  let h := setHeaderLength h (uint16 (int (0x38 + int (8 * len bmap)))) in
  let h := setExtHeaderOffset h 0 in
  setChecksum h 0.

(** [Volume.Serialize]. The receiver is a pointer: the first component is
    the volume as the call leaves it, the second how the call ends. *)
Definition Serialize (v : Volume) : Volume * outcome (list byte) :=
  let '(havePadding, paddingFileNumber) := findPadding (Files v) 0 false 0 in
  if negb havePadding then (v, Panic (PanicMsg "unimplemented"))
  else
    match serializeFiles (Files v) 0 0 ∅ with
    | Err e => (v, Fail e)
    | Ok (filesSize, fileData) =>
        let bmap := makeBlockmap filesSize in
        let h := updateHeader (hdr v) filesSize bmap in
        let checkBuf := putHeader h ++ putBlockmaps bmap in
        let h := setChecksum h (checksum16 checkBuf) in
        let v := setHdr v h in
        let buf := putHeader (hdr v) ++ putBlockmaps bmap in
        match writeFiles (Files v) 0 fileData buf with
        | Return buf => (v, Return (buf ++ Custom v))
        | Fail e => (v, Fail e)
        | Panic p => (v, Panic p)
        | Exit e => (v, Exit e)
        end
    end.

(** *** Views used by the statements *)

(** The volume has a file of the padding type. *)
Definition hasPadding (files : list FirmwareFile) : bool :=
  existsb (λ f, FileType f =? FileTypePadding) files.

(** [datas] are the bytes the files serialize to, in order. *)
Definition serialized (files : list FirmwareFile)
    (datas : list (list byte)) : Prop :=
  Forall2 (λ f d, FirmwareFile_Serialize f = Ok d) files datas.

(** In the words of the specification: a record's bytes with trailing
    0xff fill up to the next multiple of 8. *)
Definition pad8 (d : list byte) : list byte :=
  d ++ replicate (Z.to_nat ((8 - len d mod 8) mod 8)) xff.

(** In the words of the specification: the total serialized size, each
    record padded. *)
Definition totalSize (datas : list (list byte)) : Z :=
  foldr (λ d acc, len (pad8 d) + acc) 0 datas.

(** In the words of the specification:
    [paddingNeeded = (256 - filesSize % 256) mod 256]. *)
Definition paddingNeededSpec (filesSize : Z) : Z :=
  (256 - filesSize mod 256) mod 256.

(** [filesSize] as the second loop accumulates it. *)
Definition sumSizes (filesSize : Z) (datas : list (list byte)) : Z :=
  foldl (λ acc d, int (acc + len (align8 d))) filesSize datas.

(** [fileData] as the second loop fills it. *)
Fixpoint storeAll (datas : list (list byte)) (i : Z)
    (fileData : gmap Z (list byte)) : gmap Z (list byte) :=
  match datas with
  | [] => fileData
  | d :: datas' => storeAll datas' (i + 1) (<[i := align8 d]> fileData)
  end.

(** The header [Serialize] leaves in [v] and writes out. *)
Definition newHeader (h : FirmwareVolumeHeader) (filesSize : Z)
  : FirmwareVolumeHeader :=
  let bmap := makeBlockmap filesSize in
  let h0 := updateHeader h filesSize bmap in
  setChecksum h0 (checksum16 (putHeader h0 ++ putBlockmaps bmap)).

(** The checksum field of an emitted header cleared in place: bytes 0x32
    and 0x33. *)
Definition zeroChecksumField (b : list byte) : list byte :=
  take 0x32 b ++ [x00; x00] ++ drop 0x34 b.

(** [files] are the records decoded, one after the other, from the
    cursor [r], each from a cursor that is not empty, and [r'] is what is
    left. *)
Inductive decodesTo : NestedReader → list FirmwareFile → NestedReader → Prop :=
| decodes_nil r : decodesTo r [] r
| decodes_cons r f r1 files r2 :
    r ≠ [] → readFile r = Ok (f, r1) → decodesTo r1 files r2 →
    decodesTo r (f :: files) r2.

(** An outcome of [ReadVolume] with another header in the volume. *)
Definition withHeader (h : FirmwareVolumeHeader) (o : outcome Volume)
  : outcome Volume :=
  match o with
  | Return v => Return (setHdr v h)
  | Fail e => Fail e
  | Panic p => Panic p
  | Exit e => Exit e
  end.

End Volume.

(** ** A concrete set of collaborators

    The volume code is run below on explicit images. That needs some
    file-record codec, checksum and GUID printer behind the interface.
    This one is small: a record is a type byte, a 24-bit little-endian
    total size and a body, followed on disk by fill up to a multiple of 8;
    the checksum makes the 16-bit words add up to zero; a GUID prints in
    the mixed-endian form of EFI. *)
Module Sample.

Record file : Type := { fType : Z; fBody : list byte }.

Definition serialize (f : file) : result (list byte) :=
  if 4 + len (fBody f) <? 2 ^ 24
  then Ok (byte_of_Z (fType f) :: le_put 3 (4 + len (fBody f)) ++ fBody f)
  else Err (ErrOther "file too large").

Definition read (r : NestedReader) : result (file * NestedReader) :=
  match readFull 4 r with
  | Err e => Err e
  | Ok (h, r1) =>
      let size := le_get (drop 1 h) in
      if size <? 4 then Err (ErrOther "file size too small")
      else
        match readFull (Z.to_nat (size - 4)) r1 with
        | Err e => Err e
        | Ok (body, r2) =>
            match readFull (Z.to_nat ((8 - size mod 8) mod 8)) r2 with
            | Err e => Err e
            | Ok (_, r3) =>
                Ok ({| fType := le_get (take 1 h); fBody := body |}, r3)
            end
        end
  end.

Fixpoint sum16 (fuel : nat) (bs : list byte) : Z :=
  match fuel, bs with
  | S fuel', a :: b :: bs' => le_get [a; b] + sum16 fuel' bs'
  | _, [a] => Z_of_byte a
  | _, _ => 0
  end.

Definition checksum (bs : list byte) : Z :=
  uint16 (0 - sum16 (length bs) bs).

Definition hexDigit (n : Z) : ascii :=
  match String.get (Z.to_nat n) "0123456789abcdef" with
  | Some c => c
  | None => "0"%char
  end.

Definition hex (bs : list byte) : string :=
  fold_right
    (λ b s, String (hexDigit (Z_of_byte b / 16))
              (String (hexDigit (Z_of_byte b mod 16)) s))
    EmptyString bs.

Definition guidString (g : list byte) : string :=
  (hex (reverse (take 4 g)) +:+ "-" +:+ hex (reverse (take 2 (drop 4 g)))
   +:+ "-" +:+ hex (reverse (take 2 (drop 6 g)))
   +:+ "-" +:+ hex (take 2 (drop 8 g))
   +:+ "-" +:+ hex (take 6 (drop 10 g)))%string.

Lemma readFull_length n r b r' :
  readFull n r = Ok (b, r') → (length r' + n = length r)%nat.
Proof.
  unfold readFull. repeat case_decide; intros [= <- <-].
  rewrite length_drop. lia.
Qed.

Lemma read_consumes r f r' :
  read r = Ok (f, r') → (length r' < length r)%nat.
Proof.
  unfold read.
  destruct (readFull 4 r) as [[h r1]|] eqn:E1; [|done].
  destruct (_ <? 4); [done|].
  destruct (readFull _ r1) as [[body r2]|] eqn:E2; [|done].
  destruct (readFull _ r2) as [[fill r3]|] eqn:E3; [|done].
  intros [= <- <-].
  apply readFull_length in E1, E2, E3. lia.
Qed.

Lemma checksum_range b : 0 ≤ checksum b < 2 ^ 16.
Proof. apply Z.mod_pos_bound. done. Qed.

#[export] Instance collaborators : Collaborators := {|
  FirmwareFile := file;
  FileType := fType;
  FileTypePadding := 0xf0;
  GUID_String := guidString;
  checksum16 := checksum;
  checksum16_range := checksum_range;
  readFile := read;
  readFile_consumes := read_consumes;
  FirmwareFile_Serialize := serialize
|}.

(** The GUID of the header, in memory order. *)
Definition guidBytes : list byte :=
  [xd9; x54; x93; x7a; x68; x04; x4a; x44;
   x81; xce; x0b; xf6; x17; xd8; x90; xdf].

Definition headerOf (signature : list byte) (headerLength : Z)
  : FirmwareVolumeHeader := {|
  Reserved := replicate 16 x00;
  GUID := guidBytes;
  Length := 0;
  Signature := signature;
  AttributeMask := 0xffff8eff;
  HeaderLength := headerLength;
  Checksum := 0;
  ExtHeaderOffset := 0;
  Reserved2 := 0;
  Revision := 1
|}.

(** A header with the fixed values in place. *)
Definition header (headerLength : Z) : FirmwareVolumeHeader :=
  headerOf fvSignature headerLength.

(** A padding file with a body of [n] bytes of fill. *)
Definition paddingFile (n : nat) : file :=
  {| fType := 0xf0; fBody := replicate n xff |}.

(** An image: header, two-entry block map, data region, trailing bytes. *)
Definition image (blockCount blockSize : Z) (data custom : list byte)
  : list byte :=
  putHeader (header 0x48)
  ++ putBlockmaps [ {| BlockCount := blockCount; BlockSize := blockSize |};
                    {| BlockCount := 0; BlockSize := 0 |} ]
  ++ data ++ custom.

(** A file of another type with a body of [n] zero bytes. *)
Definition dataFile (n : nat) : file :=
  {| fType := 0x02; fBody := replicate n x00 |}.

Definition volume (files : list file) (custom : list byte) : Volume :=
  {| hdr := header 0x48; Files := files; Custom := custom |}.

(** The bytes of a file on disk: serialized and filled to a multiple
    of 8. *)
Definition onDisk (f : file) : list byte :=
  match serialize f with
  | Ok d => pad8 d
  | Err _ => []
  end.

(** The bytes a file serializes to. *)
Definition raw (f : file) : list byte :=
  match serialize f with
  | Ok d => d
  | Err _ => []
  end.

(** What [Serialize] returns, when it returns. *)
Definition output (v : Volume) : list byte :=
  match (Serialize v).2 with
  | Return out => out
  | _ => []
  end.

(** What [ReadVolume] returns, when it returns. *)
Definition parsed (buf : list byte) : Volume :=
  match ReadVolume buf with
  | Return v => v
  | _ => volume [] []
  end.

(** Concrete inputs. *)

(** A volume with a data file and a padding file. *)
Definition v1 : Volume := volume [dataFile 3; paddingFile 200] [xaa; xbb].

(** A volume without a padding file. *)
Definition vNoPad : Volume := volume [dataFile 3] [xaa].

(** An image whose nominal size, 1 * 256, is a multiple of 256: the data
    region is one padding file of 184 bytes. *)
Definition imageAligned : list byte :=
  image 1 256 (onDisk (paddingFile 180)) [x01; x02; x03].

(** An image whose nominal size, 1 * 352, is not a multiple of 256: the
    data region is one padding file of 280 bytes. *)
Definition imageUnaligned : list byte :=
  image 1 352 (onDisk (paddingFile 276)) [x01; x02; x03].

(** A good header followed by four bytes only: the block map is cut. *)
Definition imageCut : list byte :=
  putHeader (header 0x48) ++ [x01; x00; x00; x00].

(** A header with one byte of the signature changed, and a header with
    [HeaderLength = 0x30]. *)
Definition headerBadSignature : list byte :=
  putHeader (headerOf [x5f; x46; x56; x49] 0x48).

Definition headerTooShort : list byte := putHeader (header 0x30).

End Sample.

(** * Lemmas *)

(** ** Bytes and scalars *)

Lemma Z_of_byte_range b : 0 ≤ Z_of_byte b < 256.
Proof.
  unfold Z_of_byte. pose proof (Byte.to_N_bounded b). lia.
Qed.

Lemma Z_of_byte_of_Z z : Z_of_byte (byte_of_Z z) = z mod 256.
Proof.
  unfold Z_of_byte, byte_of_Z.
  pose proof (Z.mod_pos_bound z 256 eq_refl) as Hz.
  destruct (Byte.of_N (Z.to_N (z mod 256))) as [b|] eqn:E.
  - apply Byte.to_of_N in E. rewrite E. lia.
  - apply Byte.of_N_None_iff in E. lia.
Qed.

Lemma byte_of_Z_of_byte b : byte_of_Z (Z_of_byte b) = b.
Proof.
  unfold Z_of_byte, byte_of_Z.
  pose proof (Byte.to_N_bounded b).
  rewrite Z.mod_small by lia.
  rewrite N2Z.id, Byte.of_to_N. done.
Qed.

Lemma length_le_put n z : length (le_put n z) = n.
Proof. revert z. induction n; intros; simpl; auto. Qed.

Lemma le_get_range bs : 0 ≤ le_get bs < 256 ^ len bs.
Proof.
  unfold len. induction bs as [|b bs IH].
  - simpl. lia.
  - cbn [le_get length]. rewrite Nat2Z.inj_succ, Z.pow_succ_r by lia.
    pose proof (Z_of_byte_range b). lia.
Qed.

Lemma le_get_put n z : le_get (le_put n z) = z mod 256 ^ Z.of_nat n.
Proof.
  revert z. induction n as [|n IH]; intros z.
  - simpl. by rewrite Z.mod_1_r.
  - cbn [le_put le_get]. rewrite IH, Z_of_byte_of_Z.
    rewrite Nat2Z.inj_succ, Z.pow_succ_r by lia.
    rewrite Z.rem_mul_r by lia. lia.
Qed.

Lemma le_put_get bs : le_put (length bs) (le_get bs) = bs.
Proof.
  induction bs as [|b bs IH]; [done|].
  cbn [length le_put le_get].
  pose proof (Z_of_byte_range b).
  f_equal.
  - rewrite <- (byte_of_Z_of_byte b) at 2.
    unfold byte_of_Z.
    replace ((Z_of_byte b + 256 * le_get bs) mod 256)
      with (Z_of_byte b mod 256); [done|].
    rewrite (Z.mul_comm 256). by rewrite Z.mod_add.
  - replace ((Z_of_byte b + 256 * le_get bs) / 256) with (le_get bs);
      [exact IH|].
    rewrite (Z.add_comm (Z_of_byte b)), (Z.mul_comm 256).
    rewrite Z.div_add_l by lia.
    rewrite (Z.div_small (Z_of_byte b) 256) by lia. lia.
Qed.

Lemma le_get_put_small n z :
  0 ≤ z < 256 ^ Z.of_nat n → le_get (le_put n z) = z.
Proof. intros. rewrite le_get_put. by apply Z.mod_small. Qed.

Lemma bytes_Equal_eq a b : bytes_Equal a b = true ↔ a = b.
Proof.
  revert b. induction a as [|x a IH]; intros [|y b]; simpl; try done.
  rewrite andb_true_iff, IH. split.
  - intros [Hxy ->]. by apply Byte.byte_dec_bl in Hxy as ->.
  - intros [= -> ->]. split; [by apply Byte.byte_dec_lb|done].
Qed.

(** ** The header on the wire *)

Lemma header_wf_spec h :
  header_wf h = true ↔
  length (Reserved h) = 16%nat ∧ length (GUID h) = 16%nat ∧
  length (Signature h) = 4%nat ∧
  0 ≤ Length h < 2 ^ 64 ∧ 0 ≤ AttributeMask h < 2 ^ 32 ∧
  0 ≤ HeaderLength h < 2 ^ 16 ∧ 0 ≤ Checksum h < 2 ^ 16 ∧
  0 ≤ ExtHeaderOffset h < 2 ^ 16 ∧ 0 ≤ Reserved2 h < 2 ^ 8 ∧
  0 ≤ Revision h < 2 ^ 8.
Proof.
  unfold header_wf. rewrite !andb_true_iff, !Nat.eqb_eq.
  rewrite !Z.leb_le, !Z.ltb_lt. tauto.
Qed.

Lemma length_putHeader h :
  header_wf h = true → length (putHeader h) = 56%nat.
Proof.
  rewrite header_wf_spec. intros (HR & HG & HS & _).
  unfold putHeader. rewrite !length_app, !length_le_put. lia.
Qed.

Ltac slice_fields :=
  repeat match goal with
  | |- context [take ?n (?a ++ ?b)] =>
      rewrite (take_app_length' a b n) by (rewrite ?length_le_put; done)
  | |- context [drop ?n (?a ++ ?b)] =>
      first
        [ rewrite (drop_app_length' a b n) by (rewrite ?length_le_put; done)
        | rewrite (drop_app_ge a b n) by (rewrite ?length_le_put; lia);
          rewrite ?length_le_put;
          repeat match goal with
          | H : length a = _ |- _ => rewrite H
          end;
          cbn [Nat.sub] ]
  | |- context [drop 0 ?a] => rewrite (drop_0 a)
  | |- context [take ?n (le_put ?n ?z)] =>
      rewrite (take_ge (le_put n z) n) by (rewrite length_le_put; lia)
  end.

Lemma getHeader_putHeader h :
  header_wf h = true → getHeader (putHeader h) = h.
Proof.
  rewrite header_wf_spec. intros (HR & HG & HS & ? & ? & ? & ? & ? & ? & ?).
  destruct h as [R G L S A HL Ck E R2 Rv].
  unfold getHeader, putHeader.
  cbn [Reserved GUID Length Signature AttributeMask HeaderLength Checksum
       ExtHeaderOffset Reserved2 Revision] in *.
  slice_fields.
  rewrite !le_get_put_small by (simpl; lia).
  done.
Qed.

Lemma le_put_get_length n bs : length bs = n → le_put n (le_get bs) = bs.
Proof. intros <-. apply le_put_get. Qed.

Lemma header_wf_getHeader b :
  length b = 56%nat → header_wf (getHeader b) = true.
Proof.
  intros Hb. rewrite header_wf_spec. unfold getHeader.
  cbn [Reserved GUID Length Signature AttributeMask HeaderLength Checksum
       ExtHeaderOffset Reserved2 Revision].
  rewrite !length_take, !length_drop, Hb.
  repeat split; try done;
    match goal with
    | |- 0 ≤ le_get ?bs => apply (le_get_range bs)
    | |- le_get ?bs < _ =>
        pose proof (le_get_range bs) as Hr; unfold len in Hr;
        rewrite length_take, length_drop, Hb in Hr; exact (proj2 Hr)
    end.
Qed.

Lemma readFull_app n a r :
  length a = n → readFull n (a ++ r) = Ok (a, r).
Proof.
  intros Ha. unfold readFull.
  rewrite decide_True by (rewrite length_app; lia).
  by rewrite take_app_length', drop_app_length'.
Qed.

Lemma readFull_Ok n r b r' :
  readFull n r = Ok (b, r') → b = take n r ∧ r' = drop n r ∧ (n ≤ length r)%nat.
Proof. unfold readFull. repeat case_decide; intros [= <- <-]; auto. Qed.

Lemma readFull_Err n r e :
  readFull n r = Err e → (length r < n)%nat.
Proof. unfold readFull. repeat case_decide; intros [=]; lia. Qed.

Lemma readFull_short n r :
  (length r < n)%nat → ∃ e, readFull n r = Err e.
Proof.
  intros. unfold readFull. rewrite decide_False by lia.
  case_decide; eauto.
Qed.

Lemma readHeader_putHeader h r :
  header_wf h = true → readHeader (putHeader h ++ r) = Ok (h, r).
Proof.
  intros Hwf. unfold readHeader.
  rewrite readFull_app by by apply length_putHeader.
  by rewrite getHeader_putHeader.
Qed.

Lemma readHeader_Ok r h r' :
  readHeader r = Ok (h, r') →
  h = getHeader (take 56 r) ∧ r' = drop 56 r ∧ (56 ≤ length r)%nat
  ∧ header_wf h = true.
Proof.
  unfold readHeader.
  destruct (readFull 56 r) as [[b r1]|] eqn:E; [|done].
  intros [= <- <-]. apply readFull_Ok in E as (-> & -> & Hlen).
  repeat split; try done.
  apply header_wf_getHeader. rewrite length_take. lia.
Qed.

Lemma blockmap_wf_spec e :
  blockmap_wf e = true ↔
  0 ≤ BlockCount e < 2 ^ 32 ∧ 0 ≤ BlockSize e < 2 ^ 32.
Proof.
  unfold blockmap_wf. rewrite !andb_true_iff, !Z.leb_le, !Z.ltb_lt. tauto.
Qed.

Lemma length_putBlockmap e : length (putBlockmap e) = 8%nat.
Proof. unfold putBlockmap. by rewrite length_app, !length_le_put. Qed.

Lemma getBlockmap_putBlockmap e :
  blockmap_wf e = true → getBlockmap (putBlockmap e) = e.
Proof.
  rewrite blockmap_wf_spec. intros [? ?]. destruct e as [c s].
  unfold getBlockmap, putBlockmap. cbn [BlockCount BlockSize] in *.
  slice_fields.
  rewrite !le_get_put_small by (simpl; lia). done.
Qed.

Lemma blockmap_wf_getBlockmap b :
  length b = 8%nat → blockmap_wf (getBlockmap b) = true.
Proof.
  intros Hb. rewrite blockmap_wf_spec. unfold getBlockmap.
  cbn [BlockCount BlockSize].
  pose proof (le_get_range (take 4 b)) as H1.
  pose proof (le_get_range (take 4 (drop 4 b))) as H2.
  unfold len in *. rewrite !length_take, ?length_drop, Hb in *.
  simpl in *. lia.
Qed.

Lemma readBlockmap_putBlockmap e r :
  blockmap_wf e = true → readBlockmap (putBlockmap e ++ r) = Ok (e, r).
Proof.
  intros Hwf. unfold readBlockmap.
  rewrite readFull_app by apply length_putBlockmap.
  by rewrite getBlockmap_putBlockmap.
Qed.

(** ** ReadVolume *)

Section ReadVolumeLemmas.
Context `{C : Collaborators}.

Lemma check_None h :
  check h = None ↔
  GUID_String (GUID h) = fvGUID ∧ Signature h = fvSignature
  ∧ 0x40 ≤ HeaderLength h.
Proof.
  unfold check.
  destruct (String.eqb _ _) eqn:EG; simpl.
  - apply String.eqb_eq in EG.
    destruct (bytes_Equal _ _) eqn:ES; simpl.
    + apply bytes_Equal_eq in ES.
      destruct (_ <? _) eqn:EL.
      * apply Z.ltb_lt in EL. split; [done|]. lia.
      * apply Z.ltb_ge in EL. split; [|done]. intros _. repeat split; auto; lia.
    + split; [done|]. intros (_ & HS & _).
      apply bytes_Equal_eq in HS. congruence.
  - apply String.eqb_neq in EG. split; [done|]. intros (HG & _). done.
Qed.

Lemma readBlockmaps_length n r acc bmap r' :
  readBlockmaps n r acc = inr (bmap, r') →
  length bmap = (length acc + n)%nat.
Proof.
  revert r acc. induction n as [|n IH]; intros r acc; simpl.
  - intros [= <- <-]. lia.
  - destruct (readBlockmap r) as [[e r1]|]; [|done].
    intros H. apply IH in H. rewrite length_app in H. simpl in H. lia.
Qed.

Lemma readBlockmaps_short n r acc :
  (length r < 8 * n)%nat → ∃ e, readBlockmaps n r acc = inl e.
Proof.
  revert r acc. induction n as [|n IH]; intros r acc Hlen; [lia|].
  simpl. unfold readBlockmap.
  destruct (readFull 8 r) as [[b r1]|e] eqn:E; [|eauto].
  apply readFull_Ok in E as (-> & -> & Hle).
  apply IH. rewrite length_drop. lia.
Qed.

Lemma readBlockmaps_put bmap r acc :
  forallb blockmap_wf bmap = true →
  readBlockmaps (length bmap) (putBlockmaps bmap ++ r) acc
  = inr (acc ++ bmap, r).
Proof.
  revert acc. induction bmap as [|e bmap IH]; intros acc Hwf.
  - simpl. by rewrite app_nil_r.
  - cbn [forallb] in Hwf. apply andb_true_iff in Hwf as [He Hwf].
    unfold putBlockmaps. cbn [map concat length readBlockmaps].
    rewrite <- app_assoc.
    rewrite readBlockmap_putBlockmap by done.
    fold (putBlockmaps bmap). rewrite IH by done.
    by rewrite <- app_assoc.
Qed.

(** The file loop does not depend on its fuel once there is enough. *)
Lemma readFiles_fuel fuel1 fuel2 r acc :
  (length r ≤ fuel1)%nat → (length r ≤ fuel2)%nat →
  readFiles fuel1 r acc = readFiles fuel2 r acc.
Proof.
  revert fuel2 r acc. induction fuel1 as [|fuel1 IH]; intros fuel2 r acc H1 H2.
  - destruct r; [|simpl in H1; lia]. by destruct fuel2.
  - destruct fuel2 as [|fuel2].
    + destruct r; [|simpl in H2; lia]. done.
    + simpl. destruct (Len r =? 0); [done|].
      destruct (readFile r) as [[f r1]|] eqn:E; [|done].
      apply readFile_consumes in E. apply IH; lia.
Qed.

Lemma bmapCount_checked h :
  header_wf h = true → check h = None →
  uint16 (HeaderLength h - 0x38) = HeaderLength h - 0x38
  ∧ bmapCount h = (HeaderLength h - 0x38) / 8.
Proof.
  rewrite header_wf_spec, check_None.
  intros (_ & _ & _ & _ & _ & HL & _) (_ & _ & Hmin).
  assert (uint16 (HeaderLength h - 0x38) = HeaderLength h - 0x38) as E.
  { unfold uint16. apply Z.mod_small. lia. }
  unfold bmapCount. by rewrite E.
Qed.

(** Two entries exactly: what a two-entry read looks like on the bytes. *)
Lemma readBlockmaps_two r bmap r2 :
  readBlockmaps 2 r [] = inr (bmap, r2) →
  bmap = [getBlockmap (take 8 r); getBlockmap (take 8 (drop 8 r))]
  ∧ r2 = drop 16 r ∧ (16 ≤ length r)%nat.
Proof.
  cbn [readBlockmaps]. unfold readBlockmap.
  destruct (readFull 8 r) as [[b1 r1]|] eqn:E1; [|done].
  destruct (readFull 8 r1) as [[b2 r2']|] eqn:E2; [|done].
  intros [= <- <-].
  apply readFull_Ok in E1 as (-> & -> & H1).
  apply readFull_Ok in E2 as (-> & -> & H2).
  rewrite length_drop in H2. rewrite drop_drop.
  split_and!; [done|done|lia].
Qed.

Lemma readBlockmapStage_Return h r v :
  header_wf h = true → check h = None →
  readBlockmapStage h r = Return v →
  (HeaderLength h - 0x38) mod 8 = 0 ∧ (HeaderLength h - 0x38) / 8 = 2
  ∧ ∃ b0 b1 r2, readBlockmaps 2 r [] = inr ([b0; b1], r2)
      ∧ zeroEntry b1 = true ∧ readData h [b0; b1] r2 = Return v.
Proof.
  intros Hwf Hck. destruct (bmapCount_checked h Hwf Hck) as [Eu Ec].
  unfold readBlockmapStage. rewrite Eu.
  destruct (_ =? 0) eqn:Emod; [|done]. apply Z.eqb_eq in Emod.
  cbn [negb].
  destruct (readBlockmaps _ r []) as [e|[bmap r2]] eqn:Erd; [done|].
  pose proof (readBlockmaps_length _ _ _ _ _ Erd) as Hlen.
  destruct (bmap !! _) as [last|] eqn:Elast; [|done].
  destruct (negb (BlockCount last =? 0) || negb (BlockSize last =? 0))
    eqn:Ez; [done|].
  destruct (len bmap =? 2) eqn:E2; [|done]. cbn [negb].
  apply Z.eqb_eq in E2. unfold len in E2.
  assert (length bmap = 2%nat) as Hl2 by lia.
  intros Hdata. rewrite Hl2 in Hlen. cbn [length Nat.add] in Hlen.
  rewrite <- Hlen in Erd.
  assert (bmapCount h = 2) as Hc2.
  { assert (0 ≤ bmapCount h).
    { rewrite Ec. apply Z.div_pos; [|lia]. apply check_None in Hck. lia. }
    lia. }
  split_and!; [done|by rewrite <- Ec|].
  destruct bmap as [|b0 [|b1 [|? ?]]]; try done.
  unfold len in Elast. simpl in Elast. injection Elast as <-.
  exists b0, b1, r2. split_and!; [done| |done].
  unfold zeroEntry. apply orb_false_iff in Ez as [Ha Hb].
  apply negb_false_iff in Ha, Hb. by rewrite Ha, Hb.
Qed.

Lemma ReadVolume_Return buf v :
  ReadVolume buf = Return v →
  let b0 := getBlockmap (take 8 (drop 56 buf)) in
  let b1 := getBlockmap (take 8 (drop 64 buf)) in
  (72 ≤ length buf)%nat
  ∧ hdr v = getHeader (take 56 buf)
  ∧ header_wf (hdr v) = true ∧ check (hdr v) = None
  ∧ HeaderLength (hdr v) = 0x48
  ∧ zeroEntry b1 = true
  ∧ readData (hdr v) [b0; b1] (drop 72 buf) = Return v.
Proof.
  unfold ReadVolume.
  destruct (readHeader buf) as [[h r1]|] eqn:Eh; [|done].
  apply readHeader_Ok in Eh as (Hh & -> & Hlen & Hwf).
  destruct (check h) eqn:Eck; [done|].
  intros Hst.
  destruct (readBlockmapStage_Return _ _ _ Hwf Eck Hst)
    as (Hmod & Hdiv & b0 & b1 & r2 & Hrd & Hz & Hdata).
  apply readBlockmaps_two in Hrd as (Hb & -> & Hlen2).
  injection Hb as -> ->.
  rewrite !drop_drop in *. rewrite length_drop in Hlen2.
  assert (hdr v = h) as Hv.
  { unfold readData in Hdata. cbn in Hdata.
    destruct (readFiles _ _ _); [|done]. by injection Hdata as <-. }
  rewrite Hv. cbn zeta.
  change (56 + 8)%nat with 64%nat in *. change (56 + 16)%nat with 72%nat in *.
  pose proof (Z.div_mod (HeaderLength h - 0x38) 8).
  split_and!; try done; lia.
Qed.

Lemma ReadVolume_image h b0 r :
  header_wf h = true → check h = None → HeaderLength h = 0x48 →
  blockmap_wf b0 = true →
  ReadVolume (putHeader h ++ putBlockmaps
                [b0; {| BlockCount := 0; BlockSize := 0 |}] ++ r)
  = readData h [b0; {| BlockCount := 0; BlockSize := 0 |}] r.
Proof.
  intros Hwf Hck HL Hb0. unfold ReadVolume.
  rewrite readHeader_putHeader by done. rewrite Hck.
  unfold readBlockmapStage, bmapCount. rewrite HL.
  change (Z.to_nat (uint16 (72 - 56) / 8)) with 2%nat.
  change (negb (uint16 (72 - 56) mod 8 =? 0)) with false. cbv iota.
  rewrite (readBlockmaps_put [b0; _] r []); [done|].
  cbn [forallb]. by rewrite Hb0.
Qed.

End ReadVolumeLemmas.

(** ** Serialize *)

Section SerializeLemmas.
Context `{C : Collaborators}.

Lemma int_small z : - 2 ^ 63 ≤ z < 2 ^ 63 → int z = z.
Proof. intros. unfold int. rewrite Z.mod_small; lia. Qed.

Lemma len_nonneg {A} (l : list A) : 0 ≤ len l.
Proof. unfold len. lia. Qed.

Lemma len_app {A} (a b : list A) : len (a ++ b) = len a + len b.
Proof. unfold len. rewrite length_app. lia. Qed.

(** The alignment of the code is the padding of the specification. *)
Lemma align8_pad8 d : align8 d = pad8 d.
Proof.
  unfold align8, pad8. pose proof (len_nonneg d) as Hd.
  rewrite Z.rem_mod_nonneg by lia.
  pose proof (Z.mod_pos_bound (len d) 8 eq_refl) as Hm.
  destruct (len d mod 8 =? 0) eqn:E; cbn [negb].
  - apply Z.eqb_eq in E. rewrite E. simpl. by rewrite app_nil_r.
  - apply Z.eqb_neq in E. rewrite int_small by lia.
    rewrite (Z.mod_small (8 - len d mod 8)) by lia. done.
Qed.

Lemma len_pad8 d : len (pad8 d) mod 8 = 0.
Proof.
  unfold pad8. rewrite len_app. unfold len at 2. rewrite length_replicate.
  pose proof (len_nonneg d).
  pose proof (Z.mod_pos_bound (len d) 8 eq_refl).
  pose proof (Z.mod_pos_bound (8 - len d mod 8) 8 eq_refl).
  rewrite Z2Nat.id by lia.
  clear. generalize (len d). intros n.
  Z.div_mod_to_equations. lia.
Qed.

Lemma totalSize_nonneg datas : 0 ≤ totalSize datas.
Proof.
  induction datas as [|d ds IH]; simpl; [lia|].
  pose proof (len_nonneg (pad8 d)). lia.
Qed.

Lemma sumSizes_total filesSize datas :
  0 ≤ filesSize → filesSize + totalSize datas < 2 ^ 63 →
  sumSizes filesSize datas = filesSize + totalSize datas.
Proof.
  revert filesSize. induction datas as [|d ds IH]; intros sz H0 Hb.
  - simpl. lia.
  - cbn [sumSizes foldl totalSize foldr] in *.
    fold (totalSize ds) in *. fold (sumSizes (int (sz + len (align8 d))) ds).
    pose proof (len_nonneg (pad8 d)). pose proof (totalSize_nonneg ds).
    rewrite align8_pad8.
    rewrite int_small by lia. rewrite IH by lia. lia.
Qed.

Lemma findPadding_fst files i havePadding n :
  (findPadding files i havePadding n).1 = havePadding || hasPadding files.
Proof.
  revert i havePadding n. induction files as [|f fs IH]; intros; simpl.
  - by rewrite orb_false_r.
  - destruct (FileType f =? FileTypePadding); simpl; rewrite IH.
    + by rewrite orb_true_r.
    + done.
Qed.

Lemma serializeFiles_ok files datas i filesSize fileData :
  serialized files datas →
  serializeFiles files i filesSize fileData
  = Ok (sumSizes filesSize datas, storeAll datas i fileData).
Proof.
  intros H. revert i filesSize fileData.
  induction H as [|f d fs ds Hf _ IH]; intros; simpl; [done|].
  rewrite Hf. apply IH.
Qed.

Lemma serializeFiles_Ok_inv files i filesSize fileData x :
  serializeFiles files i filesSize fileData = Ok x →
  ∃ datas, serialized files datas.
Proof.
  revert i filesSize fileData.
  induction files as [|f fs IH]; intros i sz m; simpl.
  - intros _. exists []. constructor.
  - destruct (FirmwareFile_Serialize f) as [d|] eqn:Ef; [|done].
    intros H. apply IH in H as [ds Hds]. exists (d :: ds). by constructor.
Qed.

Lemma serializeFiles_Err_inv files i filesSize fileData e :
  serializeFiles files i filesSize fileData = Err e →
  ∃ k f cause, files !! k = Some f ∧ FirmwareFile_Serialize f = Err cause
    ∧ e = ErrFile (i + Z.of_nat k) cause.
Proof.
  revert i filesSize fileData.
  induction files as [|f fs IH]; intros i sz m; simpl; [done|].
  destruct (FirmwareFile_Serialize f) as [d|c] eqn:Ef.
  - intros H. apply IH in H as (k & f' & c & Hk & Hf' & ->).
    exists (S k), f', c. split_and!; [done|done|f_equal; lia].
  - intros [= <-]. exists 0%nat, f, c. split_and!; [done|done|f_equal; lia].
Qed.

Lemma storeAll_lookup_lt datas i fileData k :
  k < i → storeAll datas i fileData !! k = fileData !! k.
Proof.
  revert i fileData. induction datas as [|d ds IH]; intros i m Hk; simpl.
  - done.
  - rewrite IH by lia. apply lookup_insert_ne. lia.
Qed.

Lemma storeAll_lookup datas i fileData j d :
  datas !! j = Some d →
  storeAll datas i fileData !! (i + Z.of_nat j) = Some (align8 d).
Proof.
  revert i fileData j. induction datas as [|d0 ds IH]; intros i m j; [done|].
  destruct j as [|j]; cbn [storeAll].
  - intros [= ->]. rewrite Z.add_0_r.
    rewrite storeAll_lookup_lt by lia. apply lookup_insert_eq.
  - intros H. simpl in H.
    replace (i + Z.of_nat (S j)) with ((i + 1) + Z.of_nat j) by lia.
    by apply IH.
Qed.

(** Every file finds its bytes in [fileData]: the second serialization of
    the last loop never runs. *)
Lemma writeFiles_ok files datas i fileData buf :
  length files = length datas →
  (∀ j d, datas !! j = Some d →
          fileData !! (i + Z.of_nat j) = Some (align8 d)) →
  writeFiles files i fileData buf
  = Return (buf ++ concat (map align8 datas)).
Proof.
  revert datas i buf. induction files as [|f fs IH]; intros [|d ds] i buf Hlen Hm;
    try done.
  - simpl. by rewrite app_nil_r.
  - cbn [writeFiles map concat].
    specialize (Hm 0%nat d eq_refl) as H0. rewrite Z.add_0_r in H0.
    rewrite H0. rewrite (IH ds).
    + by rewrite <- app_assoc.
    + simpl in Hlen. lia.
    + intros j d' Hj. specialize (Hm (S j) d' Hj).
      by replace (i + 1 + Z.of_nat j) with (i + Z.of_nat (S j)) by lia.
Qed.

(** What a successful [Serialize] does, as one equation. *)
Lemma Serialize_ok v datas :
  hasPadding (Files v) = true →
  serialized (Files v) datas →
  let filesSize := sumSizes 0 datas in
  let h := newHeader (hdr v) filesSize in
  Serialize v =
    (setHdr v h,
     Return (putHeader h ++ putBlockmaps (makeBlockmap filesSize)
             ++ concat (map pad8 datas) ++ Custom v)).
Proof.
  intros Hpad Hser. unfold Serialize.
  pose proof (findPadding_fst (Files v) 0 false 0) as Hf.
  destruct (findPadding (Files v) 0 false 0) as [havePadding n].
  cbn in Hf. rewrite Hpad in Hf. subst havePadding. cbn [negb].
  rewrite (serializeFiles_ok _ datas) by done.
  cbn [Files setHdr hdr Custom].
  rewrite (writeFiles_ok _ datas).
  - cbn zeta. unfold newHeader. f_equal. f_equal.
    rewrite <- !app_assoc. do 3 f_equal.
    clear. induction datas as [|d ds IH]; [done|].
    simpl. by rewrite IH, align8_pad8.
  - by eapply Forall2_length.
  - intros j d Hj. rewrite <- (Z.add_0_l (Z.of_nat j)).
    by apply storeAll_lookup.
Qed.

Lemma Serialize_Return_inv v v' out :
  Serialize v = (v', Return out) →
  hasPadding (Files v) = true ∧ ∃ datas, serialized (Files v) datas.
Proof.
  unfold Serialize.
  pose proof (findPadding_fst (Files v) 0 false 0) as Hf.
  destruct (findPadding (Files v) 0 false 0) as [havePadding n].
  cbn in Hf. subst havePadding.
  destruct (hasPadding (Files v)); [|done]. cbn [negb].
  destruct (serializeFiles _ _ _ _) as [[sz m]|] eqn:E; [|done].
  intros _. split; [done|]. by eapply serializeFiles_Ok_inv.
Qed.

End SerializeLemmas.

Section HeaderLemmas.
Context `{C : Collaborators}.

Lemma paddingNeeded_spec filesSize :
  0 ≤ filesSize → paddingNeeded filesSize = paddingNeededSpec filesSize.
Proof.
  intros H. unfold paddingNeeded, paddingNeededSpec.
  rewrite Z.rem_mod_nonneg by lia.
  pose proof (Z.mod_pos_bound filesSize 256 eq_refl) as Hm.
  destruct (filesSize mod 256 =? 0) eqn:E; cbn [negb].
  - apply Z.eqb_eq in E. by rewrite E.
  - apply Z.eqb_neq in E. rewrite int_small by lia.
    rewrite (Z.mod_small (256 - _)) by lia. done.
Qed.

Lemma paddingNeededSpec_range filesSize :
  0 ≤ paddingNeededSpec filesSize < 256.
Proof. apply Z.mod_pos_bound. done. Qed.

Lemma newHeader_fields h filesSize :
  let h' := newHeader h filesSize in
  Reserved h' = Reserved h ∧ GUID h' = GUID h
  ∧ Signature h' = Signature h ∧ AttributeMask h' = AttributeMask h
  ∧ Reserved2 h' = Reserved2 h ∧ Revision h' = Revision h
  ∧ HeaderLength h' = 0x48 ∧ ExtHeaderOffset h' = 0
  ∧ Length h'
    = uint64 (0 + uint64 (int (filesSize + paddingNeeded filesSize)))
  ∧ Checksum h'
    = checksum16 (putHeader (setChecksum h' 0)
                  ++ putBlockmaps (makeBlockmap filesSize)).
Proof. cbn zeta. split_and!; reflexivity. Qed.

Lemma newHeader_HeaderLength h filesSize :
  HeaderLength (newHeader h filesSize) = 0x48.
Proof. reflexivity. Qed.

Lemma newHeader_Length h filesSize :
  0 ≤ filesSize < 2 ^ 62 →
  Length (newHeader h filesSize) = filesSize + paddingNeededSpec filesSize.
Proof.
  intros H. destruct (newHeader_fields h filesSize)
    as (_ & _ & _ & _ & _ & _ & _ & _ & -> & _).
  rewrite paddingNeeded_spec by lia.
  pose proof (paddingNeededSpec_range filesSize).
  rewrite int_small by lia. unfold uint64.
  rewrite Z.add_0_l, Z.mod_mod by lia. apply Z.mod_small. lia.
Qed.

Lemma newHeader_wf h filesSize :
  header_wf h = true → header_wf (newHeader h filesSize) = true.
Proof.
  rewrite !header_wf_spec.
  intros (HR & HG & HS & _ & HA & _ & _ & _ & HR2 & HRv).
  destruct (newHeader_fields h filesSize)
    as (-> & -> & -> & -> & -> & -> & -> & -> & -> & ->).
  pose proof (checksum16_range
    (putHeader (setChecksum (newHeader h filesSize) 0)
     ++ putBlockmaps (makeBlockmap filesSize))).
  split_and!; try done; try lia; apply Z.mod_pos_bound; done.
Qed.

Lemma newHeader_check h filesSize :
  check h = None → check (newHeader h filesSize) = None.
Proof.
  rewrite !check_None. intros (HG & HS & _).
  destruct (newHeader_fields h filesSize)
    as (_ & -> & -> & _ & _ & _ & -> & _).
  split_and!; [done|done|lia].
Qed.

Lemma makeBlockmap_small filesSize :
  0 ≤ filesSize → filesSize + 0x48 < 2 ^ 40 →
  makeBlockmap filesSize
  = [ {| BlockCount := (filesSize + 0x48) / 256; BlockSize := 256 |};
      {| BlockCount := 0; BlockSize := 0 |} ].
Proof.
  intros H0 Hb. unfold makeBlockmap.
  rewrite !int_small by (rewrite ?int_small; lia).
  replace (filesSize + 0x38 + 0x10) with (filesSize + 0x48) by lia.
  rewrite Z.quot_div_nonneg by lia.
  unfold uint32. rewrite Z.mod_small; [done|].
  split; [apply Z.div_pos; lia|].
  apply Z.div_lt_upper_bound; lia.
Qed.

Lemma length_putBlockmaps bmap :
  length (putBlockmaps bmap) = (8 * length bmap)%nat.
Proof.
  unfold putBlockmaps. induction bmap as [|e bmap IH]; [done|].
  cbn [map concat length]. rewrite length_app, length_putBlockmap, IH. lia.
Qed.

(** Clearing bytes 0x32 and 0x33 of an emitted header clears its
    [Checksum]. *)
Lemma zeroChecksumField_putHeader h rest :
  header_wf h = true →
  zeroChecksumField (putHeader h ++ rest)
  = putHeader (setChecksum h 0) ++ rest.
Proof.
  rewrite header_wf_spec. intros (HR & HG & HS & _).
  unfold zeroChecksumField, putHeader.
  cbn [Reserved GUID Length Signature AttributeMask HeaderLength Checksum
       ExtHeaderOffset Reserved2 Revision setChecksum].
  set (L := le_put 8 (Length h)). set (A := le_put 4 (AttributeMask h)).
  set (HL := le_put 2 (HeaderLength h)). set (Ck := le_put 2 (Checksum h)).
  set (tl := le_put 2 (ExtHeaderOffset h) ++ _).
  assert (length L = 8%nat) as HL8 by apply length_le_put.
  assert (length A = 4%nat) as HA4 by apply length_le_put.
  assert (length HL = 2%nat) as HL2 by apply length_le_put.
  assert (length Ck = 2%nat) as HC2 by apply length_le_put.
  change (le_put 2 0) with [x00; x00].
  replace (Reserved h ++ GUID h ++ L ++ Signature h ++ A ++ HL ++ Ck ++ tl)
    with ((Reserved h ++ GUID h ++ L ++ Signature h ++ A ++ HL) ++ Ck ++ tl)
    by (by rewrite <- !app_assoc).
  rewrite <- !(app_assoc _ _ rest).
  rewrite take_app_length' by (rewrite !length_app; lia).
  replace 0x34%nat with
    (length (Reserved h ++ GUID h ++ L ++ Signature h ++ A ++ HL) + 2)%nat
    by (rewrite !length_app; lia).
  rewrite <- drop_drop, drop_app_length.
  rewrite drop_app_length' by done.
  by rewrite <- !app_assoc.
Qed.

End HeaderLemmas.

(** * Theorems *)

Section SerializeTheorems.
Context `{C : Collaborators}.

Lemma pair_Return_inj {A B} (a a' : A) (b b' : B) :
  (a, Return b) = (a', Return b') → a = a' ∧ b = b'.
Proof. by intros [= -> ->]. Qed.

(** The three ways a call of [Serialize] can go. *)
Lemma Serialize_cases v :
  (hasPadding (Files v) = false
   ∧ Serialize v = (v, Panic (PanicMsg "unimplemented")))
  ∨ (hasPadding (Files v) = true
     ∧ ∃ k f cause, Files v !! k = Some f
         ∧ FirmwareFile_Serialize f = Err cause
         ∧ Serialize v = (v, Fail (ErrFile (Z.of_nat k) cause)))
  ∨ (hasPadding (Files v) = true
     ∧ ∃ datas, serialized (Files v) datas
         ∧ Serialize v =
             (setHdr v (newHeader (hdr v) (sumSizes 0 datas)),
              Return (putHeader (newHeader (hdr v) (sumSizes 0 datas))
                      ++ putBlockmaps (makeBlockmap (sumSizes 0 datas))
                      ++ concat (map pad8 datas) ++ Custom v))).
Proof.
  destruct (hasPadding (Files v)) eqn:Hpad.
  - right.
    destruct (serializeFiles (Files v) 0 0 ∅) as [[sz m]|e] eqn:E.
    + right. split; [done|].
      apply serializeFiles_Ok_inv in E as [datas Hd].
      exists datas. split; [done|]. by apply Serialize_ok.
    + left. split; [done|].
      pose proof E as E'.
      apply serializeFiles_Err_inv in E' as (k & f & c & Hk & Hf & ->).
      exists k, f, c. split_and!; [done|done|].
      unfold Serialize.
      pose proof (findPadding_fst (Files v) 0 false 0) as Hf'.
      destruct (findPadding (Files v) 0 false 0) as [hp n].
      cbn in Hf'. rewrite Hpad in Hf'. subst hp. cbn [negb].
      by rewrite E.
  - left. split; [done|]. unfold Serialize.
    pose proof (findPadding_fst (Files v) 0 false 0) as Hf'.
    destruct (findPadding (Files v) 0 false 0) as [hp n].
    cbn in Hf'. rewrite Hpad in Hf'. by subst hp.
Qed.

(** C2, as amended. A volume without a file of the padding type makes
    [Serialize] panic with "unimplemented": no error value is returned, no
    bytes are produced, and the volume is left as it was. *)
Theorem C2_no_padding_panics (v : Volume) :
  hasPadding (Files v) = false →
  Serialize v = (v, Panic (PanicMsg "unimplemented")).
Proof.
  intros Hpad.
  destruct (Serialize_cases v) as [[_ H]|[[H _]|[H _]]]; [done|..];
    congruence.
Qed.

(** C7. When [Serialize] succeeds, with [filesSize] the sum of the lengths
    of the records' bytes each filled with 0xff to the next multiple of 8
    (and within the range of the 32-bit block count), the output is the
    header, the block map [{(filesSize + 0x48) / 256, 256}, {0, 0}], the
    padded records and [Custom]; the header has [HeaderLength = 0x48],
    [ExtHeaderOffset = 0] and
    [Length = filesSize + (256 - filesSize mod 256) mod 256]. *)
Theorem C7_serialize_layout (v v' : Volume) (out : list byte)
    (datas : list (list byte)) :
  Serialize v = (v', Return out) →
  serialized (Files v) datas →
  totalSize datas + 0x48 < 2 ^ 40 →
  let filesSize := totalSize datas in
  hasPadding (Files v) = true
  ∧ Forall (λ d, len (pad8 d) mod 8 = 0) datas
  ∧ out = putHeader (hdr v')
          ++ putBlockmaps
               [ {| BlockCount := (filesSize + 0x48) / 256;
                    BlockSize := 256 |};
                 {| BlockCount := 0; BlockSize := 0 |} ]
          ++ concat (map pad8 datas) ++ Custom v
  ∧ HeaderLength (hdr v') = 0x48
  ∧ ExtHeaderOffset (hdr v') = 0
  ∧ Length (hdr v') = filesSize + paddingNeededSpec filesSize.
Proof.
  intros HS Hser Hb. cbn zeta.
  destruct (Serialize_Return_inv _ _ _ HS) as [Hpad _].
  rewrite (Serialize_ok v datas Hpad Hser) in HS. cbn zeta in HS.
  pose proof (totalSize_nonneg datas) as H0.
  rewrite (sumSizes_total 0 datas) in HS by lia. rewrite Z.add_0_l in HS.
  rewrite makeBlockmap_small in HS by lia.
  apply pair_Return_inj in HS as [<- <-]. cbn [hdr setHdr].
  split_and!; try done.
  - apply Forall_forall. intros d _. apply len_pad8.
  - apply newHeader_Length. lia.
Qed.

(** C8. When [Serialize] succeeds, the checksum of the first 0x48 bytes of
    the output (header and block map) with the bytes of the checksum field
    cleared is the value found in the checksum field of the output, which
    is also the [Checksum] left in the volume. *)
Theorem C8_checksum_self_consistent (v v' : Volume) (out : list byte) :
  header_wf (hdr v) = true →
  Serialize v = (v', Return out) →
  checksum16 (zeroChecksumField (take 0x48 out))
  = le_get (take 2 (drop 0x32 out))
  ∧ le_get (take 2 (drop 0x32 out)) = Checksum (hdr v').
Proof.
  intros Hwf HS.
  destruct (Serialize_Return_inv _ _ _ HS) as [Hpad [datas Hser]].
  rewrite (Serialize_ok v datas Hpad Hser) in HS. cbn zeta in HS.
  apply pair_Return_inj in HS as [<- <-]. cbn [hdr setHdr].
  set (sz := sumSizes 0 datas).
  pose proof (newHeader_wf (hdr v) sz Hwf) as Hwf'.
  set (h' := newHeader (hdr v) sz) in *.
  pose proof (length_putHeader h' Hwf') as Hlen.
  assert (take 0x48 (putHeader h' ++ putBlockmaps (makeBlockmap sz)
                     ++ concat (map pad8 datas) ++ Custom v)
          = putHeader h' ++ putBlockmaps (makeBlockmap sz)) as ->.
  { rewrite !app_assoc, <- (app_assoc _ _ (Custom v)).
    apply take_app_length'.
    rewrite length_app, Hlen, length_putBlockmaps. done. }
  rewrite zeroChecksumField_putHeader by done.
  assert (le_get (take 2 (drop 0x32 (putHeader h' ++
            putBlockmaps (makeBlockmap sz) ++ concat (map pad8 datas)
            ++ Custom v))) = Checksum h') as ->.
  { apply header_wf_spec in Hwf' as (HR & HG & HS & _ & _ & _ & HC & _).
    unfold putHeader. rewrite <- !app_assoc.
    slice_fields. by rewrite le_get_put_small by exact HC. }
  split; [|done]. subst h'.
  symmetry. apply (newHeader_fields (hdr v) sz).
Qed.

(** C9, as amended. [Serialize] never changes the file sequence, the
    [Custom] bytes or the header fields [Reserved], [GUID], [Signature],
    [AttributeMask], [Reserved2] and [Revision] of the volume. When it
    succeeds it stores the recomputed [Length], [HeaderLength], [Checksum]
    and [ExtHeaderOffset] in the volume, the values it writes out; when it
    does not succeed the volume is as before. *)
Theorem C9_serialize_frame (v : Volume) :
  let v' := (Serialize v).1 in
  Files v' = Files v ∧ Custom v' = Custom v
  ∧ Reserved (hdr v') = Reserved (hdr v) ∧ GUID (hdr v') = GUID (hdr v)
  ∧ Signature (hdr v') = Signature (hdr v)
  ∧ AttributeMask (hdr v') = AttributeMask (hdr v)
  ∧ Reserved2 (hdr v') = Reserved2 (hdr v)
  ∧ Revision (hdr v') = Revision (hdr v)
  ∧ (∀ out, (Serialize v).2 = Return out →
       ∃ datas, serialized (Files v) datas
         ∧ hdr v' = newHeader (hdr v) (sumSizes 0 datas)
         ∧ HeaderLength (hdr v') = 0x48 ∧ ExtHeaderOffset (hdr v') = 0
         ∧ out = putHeader (hdr v')
                 ++ putBlockmaps (makeBlockmap (sumSizes 0 datas))
                 ++ concat (map pad8 datas) ++ Custom v)
  ∧ ((∀ out, (Serialize v).2 ≠ Return out) → v' = v).
Proof.
  cbn zeta.
  destruct (Serialize_cases v)
    as [[_ ->]|[(_ & k & f & c & _ & _ & ->)|(_ & datas & Hser & ->)]];
    cbn [fst snd].
  1, 2: split_and!; try done; intros out [=].
  cbn [setHdr Files Custom hdr].
  split_and!; try done.
  - intros out Ho. injection Ho as Ho. exists datas. by split_and!.
  - intros H. by destruct (H _ eq_refl).
Qed.

End SerializeTheorems.

Section ReadVolumeTheorems.
Context `{C : Collaborators}.

(** A block map cut short ends the process: the error of the read goes
    to [glog.Exit], not to the caller. *)
Lemma ReadVolume_blockmap_short buf header r1 :
  readHeader buf = Ok (header, r1) → check header = None →
  (HeaderLength header - 0x38) mod 8 = 0 →
  len r1 < HeaderLength header - 0x38 →
  ∃ e, ReadVolume buf = Exit e ∧ (e = EOF ∨ e = ErrUnexpectedEOF).
Proof.
  intros Hh Hck Hmod Hshort. unfold ReadVolume. rewrite Hh, Hck.
  apply readHeader_Ok in Hh as (_ & _ & _ & Hwf).
  destruct (bmapCount_checked header Hwf Hck) as [Eu Ec].
  unfold readBlockmapStage. rewrite Eu, Hmod. cbn [Z.eqb negb].
  destruct (readBlockmaps_short (Z.to_nat (bmapCount header)) r1 [])
    as [e He].
  { rewrite Ec. unfold len in Hshort.
    pose proof (Z.div_mod (HeaderLength header - 0x38) 8).
    apply check_None in Hck. lia. }
  rewrite He. exists e. split; [done|].
  clear -He. revert He. generalize (@nil blockmap).
  generalize (Z.to_nat (bmapCount header)). intros n. revert r1.
  induction n as [|n IH]; intros r l; simpl; [done|].
  unfold readBlockmap, readFull.
  repeat case_decide; try (intros [= <-]; auto).
  apply IH.
Qed.

(** C4. A header whose GUID does not print as the known one, or whose
    signature is not "_FVH", is refused with an error of the class
    [UnsupportedFormat]; one with these right and [HeaderLength < 0x40]
    with an error of the class [MalformedHeader]. The error is returned
    whatever follows the 0x38 bytes of the header, also when nothing does:
    no byte of the block map is looked at. *)
Theorem C4_header_rejected (hb : list byte) :
  length hb = 56%nat →
  let h := getHeader hb in
  ((GUID_String (GUID h) ≠ fvGUID ∨ Signature h ≠ fvSignature) →
     ∃ e, classify e = Some UnsupportedFormat
       ∧ ∀ tail, ReadVolume (hb ++ tail) = Fail e)
  ∧ (GUID_String (GUID h) = fvGUID → Signature h = fvSignature →
     HeaderLength h < 0x40 →
     ∃ e, classify e = Some MalformedHeader
       ∧ ∀ tail, ReadVolume (hb ++ tail) = Fail e).
Proof.
  intros Hlen h.
  assert (∀ tail, readHeader (hb ++ tail) = Ok (h, tail)) as Hrd.
  { intros tail. unfold readHeader. by rewrite readFull_app. }
  split.
  - intros Hbad.
    destruct (String.eqb (GUID_String (GUID h)) fvGUID) eqn:EG.
    + apply String.eqb_eq in EG. destruct Hbad as [?|HS]; [done|].
      exists (ErrVolumeHeaderInvalid ErrInvalidSignature). split; [done|].
      intros tail. unfold ReadVolume. rewrite Hrd. unfold check.
      rewrite (proj2 (String.eqb_eq _ _) EG). cbn [negb].
      destruct (bytes_Equal (Signature h) fvSignature) eqn:ES; [|done].
      by apply bytes_Equal_eq in ES.
    + exists (ErrVolumeHeaderInvalid (ErrUnknownGUID (GUID_String (GUID h)))).
      split; [done|].
      intros tail. unfold ReadVolume. rewrite Hrd. unfold check.
      by rewrite EG.
  - intros HG HS HL.
    exists (ErrVolumeHeaderInvalid ErrHeaderLengthTooSmall). split; [done|].
    intros tail. unfold ReadVolume. rewrite Hrd. unfold check.
    rewrite (proj2 (String.eqb_eq _ _) HG). cbn [negb].
    rewrite (proj2 (bytes_Equal_eq _ _) HS). cbn [negb].
    by rewrite (proj2 (Z.ltb_lt _ _)) by lia.
Qed.

(** C5. After the header check the number of block-map entries read is
    [(HeaderLength - 0x38) / 8]. Parsing returns an error when
    [HeaderLength - 0x38] is not a multiple of 8, when the last entry read
    is not (0, 0), and when the count is not 2; when none of these is the
    case the map is accepted and parsing goes on with the data region.
    A volume is never returned otherwise. *)
Theorem C5_blockmap_decoding (buf : list byte)
    (header : FirmwareVolumeHeader) (r1 : list byte) :
  readHeader buf = Ok (header, r1) → check header = None →
  let size := HeaderLength header - 0x38 in
  bmapCount header = size / 8
  ∧ (size mod 8 ≠ 0 → ReadVolume buf = Fail ErrBlockmapSize)
  ∧ (∀ bmap r2,
       size mod 8 = 0 →
       readBlockmaps (Z.to_nat (size / 8)) r1 [] = inr (bmap, r2) →
       len bmap = size / 8
       ∧ ∃ e, last bmap = Some e
         ∧ ReadVolume buf =
             if negb (zeroEntry e) then Fail ErrBlockmapEnd
             else if negb (size / 8 =? 2)
             then Fail (ErrBlockmapCount (size / 8))
             else readData header bmap r2)
  ∧ (∀ v, ReadVolume buf = Return v →
       size mod 8 = 0 ∧ size / 8 = 2
       ∧ ∃ b0 b1 r2, readBlockmaps 2 r1 [] = inr ([b0; b1], r2)
           ∧ zeroEntry b1 = true).
Proof.
  intros Hh Hck size. subst size.
  pose proof Hh as Hh'. apply readHeader_Ok in Hh' as (_ & _ & _ & Hwf).
  destruct (bmapCount_checked header Hwf Hck) as [Eu Ec].
  assert (8 ≤ HeaderLength header - 0x38) as Hsize
    by (apply check_None in Hck; lia).
  assert (ReadVolume buf = readBlockmapStage header r1) as HRV.
  { unfold ReadVolume. by rewrite Hh, Hck. }
  split_and!.
  - done.
  - intros Hmod. rewrite HRV. unfold readBlockmapStage. rewrite Eu.
    by rewrite (proj2 (Z.eqb_neq _ _) Hmod).
  - intros bmap r2 Hmod Hrd.
    pose proof (readBlockmaps_length _ _ _ _ _ Hrd) as Hlen.
    cbn [length Nat.add] in Hlen.
    assert (1 ≤ (HeaderLength header - 0x38) / 8) as Hcnt.
    { apply Z.div_le_lower_bound; lia. }
    assert (len bmap = (HeaderLength header - 0x38) / 8) as Hl
      by (unfold len; lia).
    split; [done|].
    destruct (last bmap) as [e|] eqn:El.
    2: { apply last_None in El. subst bmap. unfold len in Hl. simpl in Hl. lia. }
    exists e. split; [done|].
    rewrite HRV. unfold readBlockmapStage.
    rewrite Eu, Hmod, Ec, Hrd. cbn [Z.eqb negb].
    rewrite last_lookup in El.
    replace (Z.to_nat (len bmap - 1)) with (pred (length bmap))
      by (unfold len; lia).
    rewrite El, Hl. unfold zeroEntry. by rewrite negb_andb.
  - intros v Hv. rewrite HRV in Hv.
    destruct (readBlockmapStage_Return _ _ _ Hwf Hck Hv)
      as (Hmod & Hdiv & b0 & b1 & r2 & Hrd & Hz & _).
    split_and!; [done|done|]. by exists b0, b1, r2.
Qed.

(** C6. The length of the data region is
    [BlockCount * BlockSize - 0x48] of the first entry, on 32 bits: a
    volume that parses has its files in that many bytes after the block
    map and its [Custom] bytes after them. For the entry (100, 256) the
    length is 25528. *)
Theorem C6_data_region_length (buf : list byte) (v : Volume) :
  ReadVolume buf = Return v →
  let b0 := getBlockmap (take 8 (drop 0x38 buf)) in
  let n := (BlockCount b0 * BlockSize b0 - 0x48) mod 2 ^ 32 in
  dataSize b0 = n
  ∧ readFiles (Z.to_nat n) (take (Z.to_nat n) (drop 0x48 buf)) []
    = Ok (Files v)
  ∧ Custom v = drop (Z.to_nat n) (drop 0x48 buf)
  ∧ dataSize {| BlockCount := 100; BlockSize := 256 |} = 25528.
Proof.
  intros Hv. cbn zeta.
  apply ReadVolume_Return in Hv as (_ & _ & _ & _ & _ & _ & Hdata).
  cbn zeta in Hdata.
  set (b0 := getBlockmap (take 8 (drop 56 buf))) in *.
  assert (dataSize b0 = (BlockCount b0 * BlockSize b0 - 0x48) mod 2 ^ 32)
    as Hn.
  { unfold dataSize, uint32. by rewrite Zminus_mod_idemp_l. }
  rewrite <- Hn. split_and!; [done| | |done].
  - unfold readData in Hdata. cbn [lookup list_lookup] in Hdata.
    unfold Sub, Advance, ReadAll in Hdata. rewrite drop_0 in Hdata.
    destruct (readFiles _ _ _) as [files|] eqn:E; [|done].
    injection Hdata as <-. cbn [Files].
    rewrite <- E. apply readFiles_fuel; [|done].
    rewrite length_take. lia.
  - unfold readData in Hdata. cbn [lookup list_lookup] in Hdata.
    destruct (readFiles _ _ _) as [files|] eqn:E; [|done].
    by injection Hdata as <-.
Qed.

(** C10. After the header check the number of block-map entries is at
    least 1, so the entries read are never an empty sequence, the last of
    them exists, and [ReadVolume] never panics on an index. *)
Theorem C10_blockmap_nonempty (buf : list byte)
    (header : FirmwareVolumeHeader) (r1 : list byte) :
  readHeader buf = Ok (header, r1) → check header = None →
  1 ≤ bmapCount header
  ∧ (∀ bmap r2,
       readBlockmaps (Z.to_nat (bmapCount header)) r1 [] = inr (bmap, r2) →
       (1 ≤ length bmap)%nat
       ∧ is_Some (bmap !! Z.to_nat (len bmap - 1)))
  ∧ ∀ p, ReadVolume buf ≠ Panic p.
Proof.
  intros Hh Hck.
  pose proof Hh as Hh'. apply readHeader_Ok in Hh' as (_ & _ & _ & Hwf).
  destruct (bmapCount_checked header Hwf Hck) as [Eu Ec].
  assert (1 ≤ bmapCount header) as Hcnt.
  { rewrite Ec. apply check_None in Hck.
    apply Z.div_le_lower_bound; lia. }
  assert (∀ bmap r2,
    readBlockmaps (Z.to_nat (bmapCount header)) r1 [] = inr (bmap, r2) →
    (1 ≤ length bmap)%nat ∧ is_Some (bmap !! Z.to_nat (len bmap - 1))) as Hne.
  { intros bmap r2 Hrd. apply readBlockmaps_length in Hrd.
    cbn [length Nat.add] in Hrd. split; [lia|].
    apply lookup_lt_is_Some. unfold len. lia. }
  split_and!; [done|done|].
  intros p. unfold ReadVolume. rewrite Hh, Hck.
  unfold readBlockmapStage.
  destruct (negb _); [done|].
  destruct (readBlockmaps _ r1 []) as [e|[bmap r2]] eqn:Hrd; [done|].
  destruct (Hne _ _ eq_refl) as [Hl [e He]]. rewrite He.
  destruct (_ || _); [done|].
  destruct (len bmap =? 2) eqn:E2; [|done]. cbn [negb].
  unfold readData.
  destruct bmap as [|b0 bmap]; [simpl in Hl; lia|].
  cbn [lookup list_lookup].
  by destruct (readFiles _ _ _).
Qed.

End ReadVolumeTheorems.

Section RoundTrip.
Context `{C : Collaborators}.

Lemma len_concat_pad8 datas :
  len (concat (map pad8 datas)) = totalSize datas.
Proof.
  induction datas as [|d ds IH]; [done|].
  cbn [map concat totalSize foldr]. fold (totalSize ds).
  rewrite len_app. lia.
Qed.

(** Reading back the padded bytes of files whose records decode to
    themselves gives the files. *)
Lemma readFiles_roundtrip files datas acc fuel :
  serialized files datas →
  (∀ f d rest, f ∈ files → FirmwareFile_Serialize f = Ok d →
     readFile (pad8 d ++ rest) = Ok (f, rest)) →
  (length (concat (map pad8 datas)) ≤ fuel)%nat →
  readFiles fuel (concat (map pad8 datas)) acc = Ok (acc ++ files).
Proof.
  intros Hser. revert acc fuel.
  induction Hser as [|f d fs ds Hf _ IH]; intros acc fuel Hrt Hfuel.
  - cbn [map concat]. destruct fuel; simpl; by rewrite app_nil_r.
  - cbn [map concat] in *.
    pose proof (Hrt f d (concat (map pad8 ds)) ltac:(left) Hf) as Hrd.
    pose proof (readFile_consumes _ _ _ Hrd) as Hcons.
    destruct fuel as [|fuel]; [lia|].
    cbn [readFiles]. unfold Len, len.
    rewrite (proj2 (Z.eqb_neq _ _)) by lia.
    rewrite Hrd. rewrite IH.
    + by rewrite <- app_assoc.
    + intros f' d' rest Hin. apply Hrt. by right.
    + lia.
Qed.

(** What the 256-byte block count of [Serialize] leaves of the data
    region when the output is parsed again. *)
Lemma requantized_dataSize filesSize :
  0 ≤ filesSize → 256 ≤ filesSize + 0x48 < 2 ^ 32 →
  dataSize {| BlockCount := (filesSize + 0x48) / 256; BlockSize := 256 |}
  = filesSize - (filesSize + 0x48) mod 256.
Proof.
  intros H0 Hb. unfold dataSize, uint32. cbn [BlockCount BlockSize].
  pose proof (Z.div_mod (filesSize + 0x48) 256).
  pose proof (Z.mod_pos_bound (filesSize + 0x48) 256).
  assert (1 ≤ (filesSize + 0x48) / 256)
    by (apply Z.div_le_lower_bound; lia).
  rewrite (Z.mod_small (_ * 256)) by lia.
  rewrite Z.mod_small by lia. lia.
Qed.

(** Parsing the output of [Serialize] again: the data region is cut after
    [filesSize - (filesSize + 0x48) mod 256] bytes, so the last
    [(filesSize + 0x48) mod 256] bytes of the files land in [Custom]. *)
Lemma reparse_custom v v' out datas v2 :
  header_wf (hdr v) = true → check (hdr v) = None →
  Serialize v = (v', Return out) →
  serialized (Files v) datas →
  256 ≤ totalSize datas + 0x48 < 2 ^ 32 →
  ReadVolume out = Return v2 →
  Custom v2 =
    drop (Z.to_nat (totalSize datas - (totalSize datas + 0x48) mod 256))
      (concat (map pad8 datas)) ++ Custom v.
Proof.
  intros Hwf Hck HS Hser Hb Hv2.
  destruct (Serialize_Return_inv _ _ _ HS) as [Hpad _].
  rewrite (Serialize_ok v datas Hpad Hser) in HS. cbn zeta in HS.
  pose proof (totalSize_nonneg datas) as H0.
  rewrite (sumSizes_total 0 datas) in HS by lia. rewrite Z.add_0_l in HS.
  rewrite makeBlockmap_small in HS by lia.
  apply pair_Return_inj in HS as [<- <-].
  rewrite ReadVolume_image in Hv2.
  - unfold readData in Hv2. cbn [lookup list_lookup] in Hv2.
    destruct (readFiles _ _ _); [|done]. injection Hv2 as <-.
    cbn [Custom]. unfold ReadAll, Advance.
    rewrite requantized_dataSize by lia.
    apply drop_app_le.
    pose proof (len_concat_pad8 datas) as Hl. unfold len in Hl.
    pose proof (Z.mod_pos_bound (totalSize datas + 0x48) 256). lia.
  - by apply newHeader_wf.
  - by apply newHeader_check.
  - apply newHeader_HeaderLength.
  - apply blockmap_wf_spec. cbn [BlockCount BlockSize].
    split; [|lia]. split; [apply Z.div_pos; lia|].
    apply Z.div_lt_upper_bound; lia.
Qed.

(** C1, as amended. A volume that was parsed from an image, has a padding
    file, and whose files serialize to [filesSize] bytes (each padded to a
    multiple of 8) with [filesSize + 0x48] a non-zero multiple of 256
    below 2^32, serializes to bytes that parse again to the same file
    sequence and the same [Custom] bytes, provided the file-record codec
    decodes the padded bytes of each of its files back to that file. *)
Theorem C1_roundtrip_aligned (buf : list byte) (v : Volume)
    (datas : list (list byte)) :
  ReadVolume buf = Return v →
  hasPadding (Files v) = true →
  serialized (Files v) datas →
  (∀ f d rest, f ∈ Files v → FirmwareFile_Serialize f = Ok d →
     readFile (pad8 d ++ rest) = Ok (f, rest)) →
  (totalSize datas + 0x48) mod 256 = 0 →
  256 ≤ totalSize datas + 0x48 < 2 ^ 32 →
  ∃ v' out v2,
    Serialize v = (v', Return out)
    ∧ ReadVolume out = Return v2
    ∧ Files v2 = Files v ∧ Custom v2 = Custom v.
Proof.
  intros Hv Hpad Hser Hrt Hmod Hb.
  apply ReadVolume_Return in Hv as (_ & _ & Hwf & Hck & _).
  pose proof (totalSize_nonneg datas) as H0.
  pose proof (Serialize_ok v datas Hpad Hser) as HS. cbn zeta in HS.
  rewrite (sumSizes_total 0 datas) in HS by lia. rewrite Z.add_0_l in HS.
  rewrite makeBlockmap_small in HS by lia.
  eexists _, _, _. split; [exact HS|].
  rewrite ReadVolume_image.
  - unfold readData. cbn [lookup list_lookup].
    rewrite requantized_dataSize by lia. rewrite Hmod, Z.sub_0_r.
    pose proof (len_concat_pad8 datas) as Hl. unfold len in Hl.
    unfold Sub, Advance, ReadAll. rewrite drop_0.
    rewrite take_app_length' by lia. rewrite drop_app_length' by lia.
    rewrite (readFiles_roundtrip (Files v) datas [] _ Hser Hrt) by lia.
    done.
  - by apply newHeader_wf.
  - by apply newHeader_check.
  - apply newHeader_HeaderLength.
  - apply blockmap_wf_spec. cbn [BlockCount BlockSize].
    split; [|lia]. split; [apply Z.div_pos; lia|].
    apply Z.div_lt_upper_bound; lia.
Qed.

End RoundTrip.

(** * The code on concrete inputs *)

#[local] Existing Instance Sample.collaborators.

(** The sample codec decodes what it encodes. *)
Lemma sample_read_serialize (f : Sample.file) (d rest : list byte) :
  0 ≤ Sample.fType f < 256 →
  Sample.serialize f = Ok d →
  Sample.read (pad8 d ++ rest) = Ok (f, rest).
Proof.
  destruct f as [t body]. unfold Sample.serialize.
  cbn [Sample.fType Sample.fBody]. intros Ht.
  destruct (4 + len body <? 2 ^ 24) eqn:E; [|done].
  apply Z.ltb_lt in E. intros Hd.
  pose proof (len_nonneg body) as Hb.
  set (sz := 4 + len body) in *.
  replace d with (byte_of_Z t :: le_put 3 sz ++ body) by congruence.
  clear Hd.
  assert (len (byte_of_Z t :: le_put 3 sz ++ body) = sz) as Hlen.
  { unfold len. cbn [length]. rewrite length_app, length_le_put.
    unfold sz, len. lia. }
  unfold pad8. rewrite Hlen.
  set (fill := replicate (Z.to_nat ((8 - sz mod 8) mod 8)) xff).
  replace (((byte_of_Z t :: le_put 3 sz ++ body) ++ fill) ++ rest)
    with ((byte_of_Z t :: le_put 3 sz) ++ body ++ fill ++ rest)
    by (cbn [app]; by rewrite <- !app_assoc).
  unfold Sample.read.
  rewrite readFull_app by (cbn [length]; by rewrite length_le_put).
  cbn [drop take]. rewrite drop_0, take_0.
  rewrite le_get_put_small by (simpl; lia).
  rewrite (proj2 (Z.ltb_ge sz 4)) by (unfold sz; lia).
  rewrite readFull_app by (unfold sz, len; lia).
  rewrite readFull_app by (unfold fill; by rewrite length_replicate).
  cbn [le_get]. rewrite Z_of_byte_of_Z, Z.mod_small by lia.
  by rewrite Z.mul_0_r, Z.add_0_r.
Qed.


Lemma ending_Returned {A} (o : outcome A) (d : A) :
  ending_of o = Returned →
  o = Return (match o with Return a => a | _ => d end).
Proof. by destruct o. Qed.

Lemma ending_Failed {A} (o : outcome A) e :
  ending_of o = Failed e → o = Fail e.
Proof. destruct o; simpl; congruence. Qed.

Lemma ending_Exited {A} (o : outcome A) e :
  ending_of o = Exited e → o = Exit e.
Proof. destruct o; simpl; congruence. Qed.

Lemma sample_parsed buf :
  ending_of (ReadVolume buf) = Returned →
  ReadVolume buf = Return (Sample.parsed buf).
Proof. apply ending_Returned. Qed.

Lemma sample_output (v : Volume) :
  ending_of (Serialize v).2 = Returned →
  Serialize v = ((Serialize v).1, Return (Sample.output v)).
Proof.
  unfold Sample.output. destruct (Serialize v) as [v' o].
  cbn [fst snd]. intros H. f_equal. by apply ending_Returned.
Qed.

(** C1, the claim as stated fails. The image [Sample.imageUnaligned]
    parses to a volume with a padding file, the volume serializes, and
    the output does not parse back to the same files and [Custom] bytes:
    its block map counts 1 block of 256 bytes for 352, so the data region
    ends 96 bytes early. *)
Lemma C1_roundtrip_unaligned_fails :
  ∃ v v' out,
    ReadVolume Sample.imageUnaligned = Return v
    ∧ hasPadding (Files v) = true
    ∧ Serialize v = (v', Return out)
    ∧ ¬ ∃ v2, ReadVolume out = Return v2
          ∧ Files v2 = Files v ∧ Custom v2 = Custom v.
Proof.
  exists (Sample.parsed Sample.imageUnaligned),
    (Serialize (Sample.parsed Sample.imageUnaligned)).1,
    (Sample.output (Sample.parsed Sample.imageUnaligned)).
  split_and!.
  - apply sample_parsed. vm_compute. reflexivity.
  - vm_compute. reflexivity.
  - apply sample_output. vm_compute. reflexivity.
  - intros (v2 & Hv2 & _).
    assert (ending_of
              (ReadVolume (Sample.output (Sample.parsed Sample.imageUnaligned)))
            = Failed (ErrReadingFile 0 ErrUnexpectedEOF)) as E
      by (vm_compute; reflexivity).
    rewrite Hv2 in E. discriminate E.
Qed.

(** The round trip on an image whose nominal size is a multiple of 256. *)
Lemma C1_roundtrip_aligned_witness :
  ReadVolume Sample.imageAligned
    = Return (Sample.parsed Sample.imageAligned)
  ∧ ∃ v' out v2,
      Serialize (Sample.parsed Sample.imageAligned) = (v', Return out)
      ∧ ReadVolume out = Return v2
      ∧ Files v2 = Files (Sample.parsed Sample.imageAligned)
      ∧ Custom v2 = Custom (Sample.parsed Sample.imageAligned).
Proof.
  assert (ReadVolume Sample.imageAligned
          = Return (Sample.parsed Sample.imageAligned)) as HR
    by (apply sample_parsed; vm_compute; reflexivity).
  assert (Files (Sample.parsed Sample.imageAligned)
          = [Sample.paddingFile 180]) as HF
    by (vm_compute; reflexivity).
  assert (totalSize [Sample.raw (Sample.paddingFile 180)] = 184) as HT
    by (vm_compute; reflexivity).
  split; [exact HR|].
  apply (C1_roundtrip_aligned (C := Sample.collaborators)
           Sample.imageAligned (Sample.parsed Sample.imageAligned)
           [Sample.raw (Sample.paddingFile 180)]).
  - exact HR.
  - vm_compute. reflexivity.
  - unfold serialized. rewrite HF.
    constructor; [vm_compute; reflexivity|constructor].
  - intros f d rest Hin Hs. rewrite HF in Hin.
    apply list_elem_of_singleton in Hin. subst f.
    apply sample_read_serialize; [|exact Hs]. simpl. lia.
  - rewrite HT. reflexivity.
  - rewrite HT. lia.
Defined.

(** C2, the claim as stated fails. [Sample.vNoPad] has no padding file;
    [Serialize] does not return an error for it, it panics. *)
Lemma C2_no_padding_is_not_an_error :
  hasPadding (Files Sample.vNoPad) = false
  ∧ (Serialize Sample.vNoPad).2 = Panic (PanicMsg "unimplemented")
  ∧ ∀ e, (Serialize Sample.vNoPad).2 ≠ Fail e.
Proof.
  assert ((Serialize Sample.vNoPad).2 = Panic (PanicMsg "unimplemented"))
    as H by (vm_compute; reflexivity).
  split_and!; [vm_compute; reflexivity|exact H|].
  intros e. rewrite H. discriminate.
Qed.

Lemma C2_no_padding_panics_witness :
  hasPadding (Files Sample.vNoPad) = false
  ∧ Serialize Sample.vNoPad
    = (Sample.vNoPad, Panic (PanicMsg "unimplemented")).
Proof.
  assert (hasPadding (Files Sample.vNoPad) = false) as H
    by (vm_compute; reflexivity).
  split; [exact H|].
  exact (C2_no_padding_panics Sample.vNoPad H).
Defined.

(** C3: the code at the failing input. [Sample.imageCut] is a good
    header with [HeaderLength = 0x48] followed by four bytes; reading the
    first block-map entry fails and [ReadVolume] does not return: the
    process exits in [glog.Exit]. *)
Theorem C3_blockmap_cut_exits :
  ReadVolume Sample.imageCut = Exit ErrUnexpectedEOF
  ∧ ∀ e, ReadVolume Sample.imageCut ≠ Fail e.
Proof.
  assert (ReadVolume Sample.imageCut = Exit ErrUnexpectedEOF) as H
    by (apply ending_Exited; vm_compute; reflexivity).
  split; [exact H|]. intros e. rewrite H. discriminate.
Qed.

Lemma C4_header_rejected_witness :
  length Sample.headerBadSignature = 56%nat
  ∧ length Sample.headerTooShort = 56%nat
  ∧ (∃ e, classify e = Some UnsupportedFormat
       ∧ ∀ tail, ReadVolume (Sample.headerBadSignature ++ tail) = Fail e)
  ∧ (∃ e, classify e = Some MalformedHeader
       ∧ ∀ tail, ReadVolume (Sample.headerTooShort ++ tail) = Fail e).
Proof.
  split_and!; [reflexivity|reflexivity| |].
  - apply (C4_header_rejected Sample.headerBadSignature eq_refl).
    right. vm_compute. discriminate.
  - apply (C4_header_rejected Sample.headerTooShort eq_refl).
    + vm_compute. reflexivity.
    + vm_compute. reflexivity.
    + vm_compute. reflexivity.
Defined.

Lemma C5_blockmap_decoding_witness :
  readHeader Sample.imageAligned
    = Ok (Sample.header 0x48, drop 56 Sample.imageAligned)
  ∧ check (Sample.header 0x48) = None
  ∧ bmapCount (Sample.header 0x48) = (0x48 - 0x38) / 8.
Proof.
  assert (readHeader Sample.imageAligned
          = Ok (Sample.header 0x48, drop 56 Sample.imageAligned)) as H1
    by (vm_compute; reflexivity).
  assert (check (Sample.header 0x48) = None) as H2
    by (vm_compute; reflexivity).
  split_and!; [exact H1|exact H2|].
  exact (proj1 (C5_blockmap_decoding _ _ _ H1 H2)).
Defined.

Lemma C6_data_region_length_witness :
  ReadVolume Sample.imageAligned
    = Return (Sample.parsed Sample.imageAligned)
  ∧ dataSize (getBlockmap (take 8 (drop 0x38 Sample.imageAligned)))
    = (1 * 256 - 0x48) mod 2 ^ 32
  ∧ Custom (Sample.parsed Sample.imageAligned)
    = drop 184 (drop 0x48 Sample.imageAligned).
Proof.
  assert (ReadVolume Sample.imageAligned
          = Return (Sample.parsed Sample.imageAligned)) as HR
    by (apply sample_parsed; vm_compute; reflexivity).
  split; [exact HR|].
  destruct (C6_data_region_length _ _ HR) as (H1 & _ & H2 & _).
  split; [exact H1|exact H2].
Defined.

Lemma C7_serialize_layout_witness :
  Serialize Sample.v1
    = ((Serialize Sample.v1).1, Return (Sample.output Sample.v1))
  ∧ take 16 (drop 56 (Sample.output Sample.v1))
    = putBlockmaps [ {| BlockCount := 1; BlockSize := 256 |};
                     {| BlockCount := 0; BlockSize := 0 |} ]
  ∧ HeaderLength (hdr (Serialize Sample.v1).1) = 0x48
  ∧ ExtHeaderOffset (hdr (Serialize Sample.v1).1) = 0
  ∧ Length (hdr (Serialize Sample.v1).1) = 256.
Proof.
  assert (Serialize Sample.v1
          = ((Serialize Sample.v1).1, Return (Sample.output Sample.v1)))
    as HS by (apply sample_output; vm_compute; reflexivity).
  assert (serialized (Files Sample.v1)
            [Sample.raw (Sample.dataFile 3);
             Sample.raw (Sample.paddingFile 200)]) as Hser.
  { repeat constructor. }
  assert (totalSize [Sample.raw (Sample.dataFile 3);
                     Sample.raw (Sample.paddingFile 200)] = 216) as HT
    by (vm_compute; reflexivity).
  split; [exact HS|].
  destruct (C7_serialize_layout _ _ _ _ HS Hser) as (_ & _ & _ & H1 & H2 & H3).
  { rewrite HT. lia. }
  split_and!; [vm_compute; reflexivity|exact H1|exact H2|].
  rewrite H3, HT. reflexivity.
Defined.

Lemma C8_checksum_self_consistent_witness :
  header_wf (hdr Sample.v1) = true
  ∧ Serialize Sample.v1
    = ((Serialize Sample.v1).1, Return (Sample.output Sample.v1))
  ∧ checksum16 (zeroChecksumField (take 0x48 (Sample.output Sample.v1)))
    = le_get (take 2 (drop 0x32 (Sample.output Sample.v1))).
Proof.
  assert (header_wf (hdr Sample.v1) = true) as Hwf
    by (vm_compute; reflexivity).
  assert (Serialize Sample.v1
          = ((Serialize Sample.v1).1, Return (Sample.output Sample.v1)))
    as HS by (apply sample_output; vm_compute; reflexivity).
  split_and!; [exact Hwf|exact HS|].
  exact (proj1 (C8_checksum_self_consistent _ _ _ Hwf HS)).
Defined.

(** C9, the claim as stated fails. [Serialize] succeeds on [Sample.v1]
    and leaves another [Length] and another [Checksum] in it. *)
Lemma C9_serialize_changes_header :
  (Serialize Sample.v1).2 = Return (Sample.output Sample.v1)
  ∧ Length (hdr Sample.v1) = 0
  ∧ Length (hdr (Serialize Sample.v1).1) = 256
  ∧ Checksum (hdr Sample.v1) = 0
  ∧ Checksum (hdr (Serialize Sample.v1).1) = 19123
  ∧ (Serialize Sample.v1).1 ≠ Sample.v1.
Proof.
  assert (Length (hdr (Serialize Sample.v1).1) = 256) as HL
    by (vm_compute; reflexivity).
  split_and!; [vm_compute; reflexivity| reflexivity | exact HL
               | reflexivity | vm_compute; reflexivity |].
  intros H. rewrite H in HL. discriminate HL.
Qed.

Lemma C10_blockmap_nonempty_witness :
  readHeader Sample.imageAligned
    = Ok (Sample.header 0x48, drop 56 Sample.imageAligned)
  ∧ check (Sample.header 0x48) = None
  ∧ 1 ≤ bmapCount (Sample.header 0x48)
  ∧ ∀ p, ReadVolume Sample.imageAligned ≠ Panic p.
Proof.
  assert (readHeader Sample.imageAligned
          = Ok (Sample.header 0x48, drop 56 Sample.imageAligned)) as H1
    by (vm_compute; reflexivity).
  assert (check (Sample.header 0x48) = None) as H2
    by (vm_compute; reflexivity).
  split_and!; [exact H1|exact H2|..];
    apply (C10_blockmap_nonempty _ _ _ H1 H2).
Defined.
